(** * go-dep-visual: the dependency-graph tool, embedded and verified

    The program (src/main.go) clones a repository, reads its module
    name from go.mod, walks the work tree collecting the imports of
    every .go file into [dependancyGraph : map[string][]string], sorts
    and compacts every dependency slice, and renders the map with
    graphviz.

    The development follows the program: first the library functions
    main.go calls (strings, path/filepath, slices), then the two
    helpers [convertHTTPtoSSH] and [getPackageName], then [main] as a
    computation in a small trace-and-error monad, and finally the
    properties. *)

From Stdlib Require Import Ascii String List Arith Lia Bool.
From Stdlib Require Import Sorting.Permutation Sorting.Sorted.
From stdpp Require Import base tactics option list gmap strings fin_maps.

Local Open Scope list_scope.
Local Open Scope stdpp_scope.

(** ** Go strings as byte sequences *)

(** A Go string is an immutable byte sequence.  Program-level values are
    [string]; the library loops below run over the bytes. *)
Abbreviation bytes := (list ascii).

Definition bytesOf (s : string) : bytes := list_ascii_of_string s.
Definition ofBytes (b : bytes) : string := string_of_list_ascii b.

(** The double-quote byte (34) and the separator byte of Unix paths. *)
Definition dquote : ascii := ascii_of_nat 34.
Definition Separator : ascii := "/"%char.

Definition IsPathSeparator (c : ascii) : bool := Ascii.eqb c Separator.

(** ** Package strings *)

Module Strings.

(** [s[lo:hi]] on bytes. *)
Definition slice (s : bytes) (lo hi : nat) : bytes :=
  take (hi - lo) (drop lo s).

Fixpoint eqb (a b : bytes) : bool :=
  match a, b with
  | [], [] => true
  | x :: a', y :: b' => Ascii.eqb x y && eqb a' b'
  | _, _ => false
  end.

(** [len(s) >= len(prefix) && s[:len(prefix)] == prefix] *)
Definition hasPrefix (s prefix : bytes) : bool :=
  (length prefix <=? length s) && eqb (slice s 0 (length prefix)) prefix.

(** [len(s) >= len(suffix) && s[len(s)-len(suffix):] == suffix] *)
Definition hasSuffix (s suffix : bytes) : bool :=
  (length suffix <=? length s)
  && eqb (slice s (length s - length suffix) (length s)) suffix.

(** Index of the first instance of [substr] in [s]; [None] is Go's -1. *)
Fixpoint index (s substr : bytes) : option nat :=
  if hasPrefix s substr then Some 0
  else match s with
       | [] => None
       | _ :: s' => S <$> index s' substr
       end.

(** [Replace(s, old, new, n)] for [n >= 0]: the first [n]
    non-overlapping instances of [old] are replaced by [new].  For an
    empty [old] Go advances rune by rune, which agrees with this
    definition up to [n = 1]; main.go only passes non-empty constants
    and [n = 1]. *)
Fixpoint replace (s old new : bytes) (n : nat) : bytes :=
  match n with
  | 0 => s
  | S n' =>
      match index s old with
      | None => s
      | Some j =>
          slice s 0 j ++ new ++ replace (drop (j + length old) s) old new n'
      end
  end.

Definition HasPrefix (s prefix : string) : bool :=
  hasPrefix (bytesOf s) (bytesOf prefix).
Definition HasSuffix (s suffix : string) : bool :=
  hasSuffix (bytesOf s) (bytesOf suffix).
Definition Replace (s old new : string) (n : nat) : string :=
  if String.eqb old new then s
  else ofBytes (replace (bytesOf s) (bytesOf old) (bytesOf new) n).

End Strings.

(** ** Package path/filepath (Unix) *)

Module Filepath.

(** The output buffer of [Clean] is kept reversed: its head is the
    byte written last and its length is the write index [w]. *)

(** The [..] case when [out.w > dotdot]:
    [out.w--; for out.w > dotdot && !sep(out.index(out.w)) { out.w-- }].
    [out.index(out.w)] is the byte that was just dropped. *)
Fixpoint backtrack (out : bytes) (dotdot : nat) : bytes :=
  match out with
  | [] => []
  | c :: out' =>
      if (length out' <=? dotdot) || IsPathSeparator c then out'
      else backtrack out' dotdot
  end.

(** [for ; r < n && !sep(path[r]); r++ { out.append(path[r]) }]:
    returns the unread rest and the buffer. *)
Fixpoint copyElem (path out : bytes) : bytes * bytes :=
  match path with
  | [] => ([], out)
  | c :: path' =>
      if IsPathSeparator c then (path, out) else copyElem path' (c :: out)
  end.

(** [r+1 == n || sep(path[r+1])] and the like: the unread part is
    empty or starts with a separator. *)
Definition atElemEnd (path : bytes) : bool :=
  match path with
  | [] => true
  | c :: _ => IsPathSeparator c
  end.

(** [path[r] == '.' && (r+1 == n || sep(path[r+1]))] *)
Definition isDot (path : bytes) : bool :=
  match path with
  | c :: p1 => Ascii.eqb c "."%char && atElemEnd p1
  | [] => false
  end.

(** [path[r] == '.' && path[r+1] == '.' && (r+2 == n || sep(path[r+2]))];
    the test is only reached when [isDot] failed, so [path[r+1]] exists. *)
Definition isDotDot (path : bytes) : bool :=
  match path with
  | c :: c1 :: p2 => Ascii.eqb c "."%char && Ascii.eqb c1 "."%char && atElemEnd p2
  | _ => false
  end.

(** The main loop [for r < n { switch ... }].  [path] is the unread
    part [path[r:]]; every turn consumes at least one byte, so
    [length path] turns are enough. *)
Fixpoint cleanLoop (fuel : nat) (rooted : bool) (path out : bytes)
         (dotdot : nat) : bytes :=
  match fuel with
  | 0 => out
  | S fuel' =>
      match path with
      | [] => out
      | c :: p1 =>
          if IsPathSeparator c then
            (* empty path element *)
            cleanLoop fuel' rooted p1 out dotdot
          else if isDot path then
            (* . element *)
            cleanLoop fuel' rooted p1 out dotdot
          else if isDotDot path then
            (* .. element: remove to last separator *)
            let p2 := drop 2 path in
            if dotdot <? length out then
              cleanLoop fuel' rooted p2 (backtrack out dotdot) dotdot
            else if negb rooted then
              (* cannot backtrack, but not rooted, so append .. element *)
              let out1 := if 0 <? length out then Separator :: out else out in
              let out2 := "."%char :: "."%char :: out1 in
              cleanLoop fuel' rooted p2 out2 (length out2)
            else
              cleanLoop fuel' rooted p2 out dotdot
          else
            (* real path element: add slash if needed, copy element *)
            let out1 :=
              if (rooted && negb (length out =? 1))
                 || (negb rooted && negb (length out =? 0))
              then Separator :: out else out in
            let '(rest, out2) := copyElem path out1 in
            cleanLoop fuel' rooted rest out2 dotdot
      end
  end.

Definition clean (path : bytes) : bytes :=
  match path with
  | [] => ["."%char]
  | c :: _ =>
      let rooted := IsPathSeparator c in
      let out :=
        if rooted then cleanLoop (length path) true (drop 1 path) [Separator] 1
        else cleanLoop (length path) false path [] 0 in
      (* Turn empty string into "." *)
      match out with
      | [] => ["."%char]
      | _ => rev out
      end
  end.

(** [strings.Join(elem, "/")] *)
Fixpoint joinSep (elem : list bytes) : bytes :=
  match elem with
  | [] => []
  | [e] => e
  | e :: rest => e ++ Separator :: joinSep rest
  end.

(** [Join]: leading empty elements are ignored, the rest is joined
    with the separator and cleaned; all-empty gives the empty string. *)
Fixpoint join (elem : list bytes) : bytes :=
  match elem with
  | [] => []
  | e :: rest =>
      match e with
      | [] => join rest
      | _ => clean (joinSep elem)
      end
  end.

(** [i := len(path)-1; for i >= 0 && !sep(path[i]) { i-- }] on the
    reversed path: what is left is [path[:i+1]] reversed. *)
Fixpoint dropLastElem (rpath : bytes) : bytes :=
  match rpath with
  | [] => []
  | c :: r => if IsPathSeparator c then rpath else dropLastElem r
  end.

Definition dir (path : bytes) : bytes :=
  clean (rev (dropLastElem (rev path))).

(** [Ext]: scan from the end down to the last separator, stop at the
    first dot.  [acc] is [path[i+1:]]. *)
Fixpoint extFrom (rpath acc : bytes) : bytes :=
  match rpath with
  | [] => []
  | c :: r =>
      if IsPathSeparator c then []
      else if Ascii.eqb c "."%char then c :: acc
      else extFrom r (c :: acc)
  end.

Definition ext (path : bytes) : bytes := extFrom (rev path) [].

Definition Clean (path : string) : string := ofBytes (clean (bytesOf path)).
Definition Join (elem : list string) : string :=
  ofBytes (join (bytesOf <$> elem)).
Definition Dir (path : string) : string := ofBytes (dir (bytesOf path)).
Definition Ext (path : string) : string := ofBytes (ext (bytesOf path)).

End Filepath.

(** ** Package slices *)

Module Slices.

Fixpoint insertSorted (x : string) (l : list string) : list string :=
  match l with
  | [] => [x]
  | y :: l' => if String.leb x y then x :: l else y :: insertSorted x l'
  end.

(** [slices.Sort(s)] sorts [s] in place in ascending order.  On
    strings the order is the bytewise lexicographic one and equal
    strings cannot be told apart, so the outcome is the one ascending
    rearrangement of [s]; it is computed here by insertion. *)
Definition Sort (s : list string) : list string := foldr insertSorted [] s.

(** One turn of the loop of [Compact], at index [k], on the backing
    array [s] with write index [i]:
    [if s[k] != s[k-1] { if i != k { s[i] = s[k] }; i++ }]. *)
Definition compactStep (st : list string * nat) (k : nat) : list string * nat :=
  let '(s, i) := st in
  match s !! k, s !! (k - 1) with
  | Some x, Some y =>
      if String.eqb x y then (s, i)
      else ((if i =? k then s else <[i := x]> s), S i)
  | _, _ => (s, i)
  end.

(** [slices.Compact(s)] works in place and RETURNS the shortened slice
    [s[:i]]; the slice header the caller holds keeps its length.  The
    result is the backing array as the caller's header sees it after
    the call, together with the length [i] of the returned slice.

    [clearTail] selects the library version: Go 1.21 leaves
    [s[i:]] as the loop left it, Go 1.22 and later end with
    [clear(s[i:])], which stores the empty string there. *)
Definition Compact (clearTail : bool) (s : list string) : list string * nat :=
  if length s <? 2 then (s, length s)
  else
    let '(s', i) := foldl compactStep (s, 1) (seq 1 (length s - 1)) in
    (if clearTail then take i s' ++ replicate (length s' - i) "" else s', i).

End Slices.

(** ** The helpers of main.go *)

(** The error values main.go passes around.  Where Go returns
    [(string, error)] the nil error is [None]. *)
Inductive error : Type :=
| ErrInvalidURL                (* fmt.Errorf("invalid URL format") *)
| ErrWalk (path : string)      (* the error Walk hands to its callback *)
| ErrOpen (path : string)      (* tree.Filesystem.Open *)
| ErrRead (path : string).     (* buf.ReadFrom *)

Definition convertHTTPtoSSH (httpURL : string) : string * option error :=
  if negb (Strings.HasPrefix httpURL "https://") then
    ("", Some ErrInvalidURL)
  else
    let sshURL := Strings.Replace httpURL "https://" "git@" 1 in
    let sshURL := Strings.Replace sshURL "/" ":" 1 in
    (sshURL, None).

Definition getPackageName (modulePath relativeFilePath : string) : string :=
  (* Join the module path and the directory of the relative file path *)
  let fullPath := Filepath.Join [modulePath; Filepath.Dir relativeFilePath] in
  fullPath.

(** ** The world main.go runs in *)

(** What [modfile.Parse] makes of a go.mod file. *)
Inductive ModParse : Type :=
| ModError                     (* Parse returns an error *)
| ModNoModule                  (* parses, but has no module directive: Module is nil *)
| ModPath (p : string).        (* Module.Mod.Path *)

(** One visit of [util.Walk]: the callback is called with [fpath] and,
    when [walkErr], with a non-nil error.  The other fields say what
    the libraries answer for the file at that path. *)
Record File : Type := {
  fpath : string;
  walkErr : bool;
  openErr : bool;                    (* tree.Filesystem.Open fails *)
  readErr : bool;                    (* buf.ReadFrom fails *)
  gomod : ModParse;                  (* modfile.Parse on its bytes *)
  imports : option (list string)     (* parser.ParseFile, ImportsOnly: None is an
                                        error, otherwise each Path.Value literal *)
}.

Record World : Type := {
  dotVersionOk : bool;               (* exec dot -V succeeds *)
  Args : list string;                (* os.Args *)
  HOME : string;
  keyOpenOk : bool;                  (* os.Open of the key file *)
  keyReadOk : bool;
  publicKeysOk : bool;               (* ssh.NewPublicKeys *)
  remote : string → option (list File);   (* git.Clone by URL; the work tree
                                             in Walk order *)
  worktreeOk : bool;                 (* repo.Worktree *)
  clearTail : bool;                  (* slices.Compact of Go 1.22 and later *)
  writeOk : bool;                    (* os.WriteFile graph.dot *)
  dotRunOk : bool                    (* exec dot -Tpdf *)
}.

(** The graph handed to gographviz: node names in the order of the
    [AddNode] calls and (src, dst) pairs in the order of [AddEdge]. *)
Record Graph : Type := { Nodes : list string; Edges : list (string * string) }.

(** What the run does to the outside, in order. *)
Inductive Event : Type :=
| EvExec (argv : list string)
| EvOpen (path : string)
| EvClone (url : string)
| EvWriteFile (name : string) (graph : Graph).

(** How a run ends early: the [log.Fatal] or the [panic] reached. *)
Inductive Abort : Type :=
| FatalGraphviz                (* line 30 *)
| FatalNoArgument              (* line 34 *)
| FatalURL (e : error)         (* line 39 *)
| FatalKey                     (* lines 44, 49, 55 *)
| FatalClone                   (* line 65 *)
| FatalWorktree                (* line 70 *)
| FatalGoModParse              (* line 93 *)
| FatalGoModSearch (e : error) (* line 104 *)
| FatalSourceParse             (* line 129 *)
| FatalWalk (e : error)        (* line 145 *)
| FatalWrite                   (* line 181 *)
| PanicNilModule               (* line 96: Module is nil *)
| PanicSliceBounds             (* line 133: slice bounds out of range *)
| PanicDot.                    (* line 186 *)

(** A run: the events so far and either the abort or a value. *)
Definition Run (A : Type) : Type := list Event * (Abort + A).

Definition abort {A} (e : Abort) : Run A := ([], inl e).
Definition emit (ev : Event) : Run unit := ([ev], inr tt).

#[global] Instance Run_ret : MRet Run := λ A a, ([], inr a).
#[global] Instance Run_bind : MBind Run := λ A B f m,
  match m with
  | (t, inl e) => (t, inl e)
  | (t, inr a) => let '(t', r) := f a in (t ++ t', r)
  end.

Definition guard (ok : bool) (e : Abort) : Run unit :=
  if ok then mret tt else abort e.

(** [util.Walk(fs, ".", fn)]: [fn] is called visit by visit, threading
    the variables it captures; the first error it returns stops the
    walk and is returned. *)
Fixpoint Walk {S : Type} (fn : S → File → Run (error + S))
         (tree : list File) (s : S) : Run (error + S) :=
  match tree with
  | [] => mret (inr s)
  | f :: tree' =>
      r ← fn s f ;
      match r with
      | inl err => mret (inl err)
      | inr s' => Walk fn tree' s'
      end
  end.

Abbreviation DepGraph := (gmap string (list string)).

(** [if _, ok := dependancyGraph[k]; !ok { dependancyGraph[k] = make([]string, 0) }] *)
Definition ensureKey (k : string) (g : DepGraph) : DepGraph :=
  match g !! k with
  | Some _ => g
  | None => <[k := []]> g
  end.

(** [v[1 : len(v)-1]], the import path inside its quotes. *)
Definition importPath (v : string) : string :=
  String.substring 1 (String.length v - 2) v.

(** Go panics when the bounds of the slice expression are out of range. *)
Definition unquote (v : string) : Run string :=
  if String.length v <? 2 then abort PanicSliceBounds
  else mret (importPath v).

(** Lines 134-137, what one import does to the map: the dependancy
    becomes a key, then it is appended to the slice of [name] (a
    missing key reads as the nil slice). *)
Definition recordImport (name dependancy : string) (g : DepGraph) : DepGraph :=
  let g := ensureKey dependancy g in
  <[name := default [] (g !! name) ++ [dependancy]]> g.

(** Lines 132-138, the loop over [source.Imports]. *)
Fixpoint addImports (name : string) (specs : list string) (g : DepGraph)
  : Run DepGraph :=
  match specs with
  | [] => mret g
  | v :: specs' =>
      dependancy ← unquote v ;
      addImports name specs' (recordImport name dependancy g)
  end.

(** Lines 75-101, the callback that looks for go.mod; it captures
    [moduleName]. *)
Definition findModule (moduleName : string) (f : File) : Run (error + string) :=
  if walkErr f then mret (inl (ErrWalk (fpath f)))
  else if Strings.HasSuffix (fpath f) "go.mod" then
    if openErr f then mret (inl (ErrOpen (fpath f)))
    else if readErr f then mret (inl (ErrRead (fpath f)))
    else match gomod f with
         | ModError => abort FatalGoModParse
         | ModNoModule => abort PanicNilModule
         | ModPath p => mret (inr p)
         end
  else mret (inr moduleName).

(** Lines 109-142, the callback that fills [dependancyGraph]. *)
Definition addFile (moduleName : string) (g : DepGraph) (f : File)
  : Run (error + DepGraph) :=
  if walkErr f then mret (inl (ErrWalk (fpath f)))
  else if String.eqb (Filepath.Ext (fpath f)) ".go" then
    if openErr f then mret (inl (ErrOpen (fpath f)))
    else
      let name := getPackageName moduleName (fpath f) in
      let g := ensureKey name g in
      match imports f with
      | None => abort FatalSourceParse
      | Some specs => g' ← addImports name specs g ; mret (inr g')
      end
  else mret (inr g).

(** Lines 148-151: [slices.Sort(deps); slices.Compact(deps)] for every
    value of the map.  [deps] shares its backing array with the slice
    stored in the map, the value [Compact] returns is dropped, so the
    stored slice keeps its length and shows the array as the two calls
    left it.  Every key has a backing array of its own, so the order in
    which the map is ranged over does not matter. *)
Definition sortCompact (clear : bool) (deps : list string) : list string :=
  fst (Slices.Compact clear (Slices.Sort deps)).

Definition dedupPass (clear : bool) (g : DepGraph) : DepGraph :=
  sortCompact clear <$> g.

(** ** main *)

Section Program.

(** [fmt.Sprintf("%q", s)]: the Go-quoted form of [s]. *)
Variable Quote : string → string.

(** [if !seen[n] { seen[n] = true; graph.AddNode("G", Quote n, nil) }];
    with nil attributes [AddNode] and [AddEdge] return no error. *)
Definition addNodeOnce (n : string) (st : gset string * Graph)
  : gset string * Graph :=
  let '(seen, graph) := st in
  if decide (n ∈ seen) then st
  else ({[n]} ∪ seen,
        {| Nodes := Nodes graph ++ [Quote n]; Edges := Edges graph |}).

(** Lines 166-177, one dependancy of [module]. *)
Definition renderDep (module : string) (st : gset string * Graph)
           (dependancy : string) : gset string * Graph :=
  let '(seen, graph) := addNodeOnce dependancy st in
  (seen, {| Nodes := Nodes graph;
            Edges := Edges graph ++ [(Quote dependancy, Quote module)] |}).

(** Lines 158-178, one entry of the map. *)
Definition renderEntry (st : gset string * Graph)
           (entry : string * list string) : gset string * Graph :=
  let '(module, dependancies) := entry in
  foldl (renderDep module) (addNodeOnce module st) dependancies.

(** The rendering loop over the entries of the map in the order
    [entries]; Go ranges over a map in an unspecified order. *)
Definition render (entries : list (string * list string)) : Graph :=
  snd (foldl renderEntry (∅, {| Nodes := []; Edges := [] |}) entries).

(** Lines 73-105: the module name, or the abort. *)
Definition moduleStage (tree : list File) : Run string :=
  r ← Walk findModule tree "";
  match r with
  | inl err => abort (FatalGoModSearch err)
  | inr moduleName => mret moduleName
  end.

(** Lines 107-146: the dependency map after the walk. *)
Definition graphStage (moduleName : string) (tree : list File) : Run DepGraph :=
  r ← Walk (addFile moduleName) tree ∅;
  match r with
  | inl err => abort (FatalWalk err)
  | inr dependancyGraph => mret dependancyGraph
  end.

Definition main (w : World) : Run unit :=
  emit (EvExec ["dot"; "-V"]);;
  guard (dotVersionOk w) FatalGraphviz;;
  match Args w with
  | _ :: arg1 :: _ =>
      match convertHTTPtoSSH arg1 with
      | (_, Some err) => abort (FatalURL err)
      | (url, None) =>
          emit (EvOpen (Filepath.Join [HOME w; "/.ssh/id_rsa"]));;
          guard (keyOpenOk w) FatalKey;;
          guard (keyReadOk w) FatalKey;;
          guard (publicKeysOk w) FatalKey;;
          emit (EvClone url);;
          match remote w url with
          | None => abort FatalClone
          | Some tree =>
              guard (worktreeOk w) FatalWorktree;;
              moduleName ← moduleStage tree;
              dependancyGraph ← graphStage moduleName tree;
              let dependancyGraph := dedupPass (clearTail w) dependancyGraph in
              let graph := render (map_to_list dependancyGraph) in
              emit (EvWriteFile "graph.dot" graph);;
              guard (writeOk w) FatalWrite;;
              emit (EvExec ["dot"; "-Tpdf"; "graph.dot"; "-o"; "graph.pdf"]);;
              guard (dotRunOk w) PanicDot
          end
      end
  | _ => abort FatalNoArgument          (* len(os.Args) < 2 *)
  end.

End Program.

(** A small world to run the program in: Go-style quoting of plain
    names, and a tree given as (path, go.mod outcome, import literals). *)
Definition plainQuote (s : string) : string :=
  String dquote (s +:+ String dquote "").

Definition lit (s : string) : string := plainQuote s.

Definition goFile (path : string) (imps : list string) : File :=
  {| fpath := path; walkErr := false; openErr := false; readErr := false;
     gomod := ModError; imports := Some (lit <$> imps) |}.

Definition modFile (path : string) (m : ModParse) : File :=
  {| fpath := path; walkErr := false; openErr := false; readErr := false;
     gomod := m; imports := None |}.

Definition dirEntry (path : string) : File :=
  {| fpath := path; walkErr := false; openErr := false; readErr := false;
     gomod := ModError; imports := None |}.

Definition worldOf (clear : bool) (arg : string) (tree : list File) : World :=
  {| dotVersionOk := true; Args := ["go-dep-visual"; arg]; HOME := "/home/u";
     keyOpenOk := true; keyReadOk := true; publicKeysOk := true;
     remote := λ _, Some tree; worktreeOk := true; clearTail := clear;
     writeOk := true; dotRunOk := true |}.

Definition scenario : list File :=
  [ dirEntry "."; modFile "go.mod" (ModPath "root"); goFile "main.go" ["fmt"];
    dirEntry "sub"; goFile "sub/a.go" ["root"; "fmt"] ].

(** * The specification's vocabulary *)

(** The spec's words: [s] begins with [p]. *)
Definition beginsWith (s p : string) : Prop := ∃ rest, s = p +:+ rest.

(** The spec's words: the first "/" of [s] replaced by ":". *)
Fixpoint firstSlashToColon (s : string) : string :=
  match s with
  | "" => ""
  | String c s' =>
      if Ascii.eqb c "/"%char then String ":"%char s'
      else String c (firstSlashToColon s')
  end.

(** A source file whose import section cannot be parsed: the walk
    reaches it, it is a .go file that opens, and [parser.ParseFile]
    returns an error. *)
Definition unparsable (f : File) : Prop :=
  walkErr f = false ∧ Filepath.Ext (fpath f) = ".go"
  ∧ openErr f = false ∧ imports f = None.


(** No visit of the walk fails and no path ends in go.mod. *)
Definition noGoMod (tree : list File) : Prop :=
  ∀ f, f ∈ tree → walkErr f = false ∧ Strings.HasSuffix (fpath f) "go.mod" = false.

(** No dangling edge: whatever a dependency slice mentions is a key. *)
Definition closed (g : DepGraph) : Prop :=
  ∀ P deps d, g !! P = Some deps → d ∈ deps → is_Some (g !! d).

(** [g'] has the keys of [g] and, under each, at least its entries. *)
Definition extends (g g' : DepGraph) : Prop :=
  ∀ P deps, g !! P = Some deps → ∃ deps', g' !! P = Some deps' ∧ deps ⊆ deps'.

(** [d] is recorded as a dependency of [P]. *)
Definition records (g : DepGraph) (P d : string) : Prop :=
  ∃ deps, g !! P = Some deps ∧ d ∈ deps.

(** The Graph Builder of the specification: lines 107-151, from the
    stream of files to the map that is rendered. *)
Definition builder (clear : bool) (M : string) (tree : list File)
  : option DepGraph :=
  match graphStage M tree with
  | (_, inr g) => Some (dedupPass clear g)
  | (_, inl _) => None
  end.

(** How many times [x] occurs in [l]. *)
Definition multiplicity {A} `{EqDecision A} (x : A) (l : list A) : nat :=
  length (filter (λ y, y = x) l).

(** The edges of the Rendered Graph for one entry of the map: one per
    element of the slice, from the dependency to the dependent. *)
Definition entryEdges (Quote : string → string)
           (entry : string * list string) : list (string * string) :=
  (λ d, (Quote d, Quote entry.1)) <$> entry.2.

(** A path element as module paths and walked paths have them: not
    empty, without separator, and neither "." nor "..". *)
Definition plainElem (e : string) : bool :=
  negb (String.eqb e "") && forallb (λ c, negb (IsPathSeparator c)) (bytesOf e)
  && negb (String.eqb e ".") && negb (String.eqb e "..").

(** A file name: any string without separator. *)
Definition fileName (e : string) : bool :=
  forallb (λ c, negb (IsPathSeparator c)) (bytesOf e).

(** The path whose elements are [elems], in this order. *)
Definition pathOf (elems : list string) : string :=
  ofBytes (Filepath.joinSep (bytesOf <$> elems)).

(** What may follow the last element of a path that [Clean] returns
    unchanged: nothing, a separator, or a separator and a dot. *)
Definition harmlessTail (tail : bytes) : Prop :=
  tail = [] ∨ tail = [Separator] ∨ tail = [Separator; "."%char].

(** The map [g] with the slices of [x] appended key by key; a key of
    one map only keeps its slice. *)
Definition appended (g x : DepGraph) : DepGraph :=
  union_with (λ a b, Some (a ++ b)) g x.

(** A walk that did not run to its end: the callback aborted the run,
    or returned an error. *)
Definition stopped {S} (r : Run (error + S)) : Prop :=
  match r.2 with
  | inr (inr _) => False
  | _ => True
  end.

(** Some .go file of package [P] in [tree] declares the import [d]. *)
Definition importedBy (tree : list File) (M P d : string) : Prop :=
  ∃ f specs v,
    f ∈ tree ∧ Filepath.Ext (fpath f) = ".go"
    ∧ getPackageName M (fpath f) = P
    ∧ imports f = Some specs ∧ v ∈ specs ∧ importPath v = d.

(** [P] is the package of some .go file of [tree]. *)
Definition packageOf (tree : list File) (M P : string) : Prop :=
  ∃ f, f ∈ tree ∧ Filepath.Ext (fpath f) = ".go"
       ∧ getPackageName M (fpath f) = P.

(** A go.mod the walk finds and [modfile.Parse] accepts with module
    path [p]. *)
Definition goodGoMod (f : File) (p : string) : Prop :=
  walkErr f = false ∧ Strings.HasSuffix (fpath f) "go.mod" = true
  ∧ openErr f = false ∧ readErr f = false ∧ gomod f = ModPath p.

(** [s] is a key of [entries] or stands in one of their slices. *)
Definition mentions (entries : list (string * list string)) (s : string) : Prop :=
  ∃ P deps, (P, deps) ∈ entries ∧ (s = P ∨ s ∈ deps).

(** The state of the rendering loop holds the names [names]: they are
    the nodes added so far, each once, and the members of [seen]. *)
Definition listed (Quote : string → string) (st : gset string * Graph)
           (names : list string) : Prop :=
  Nodes st.2 = Quote <$> names ∧ NoDup names ∧ ∀ s, s ∈ st.1 ↔ s ∈ names.

(** The loop of [Compact] on the slice [s], before its turn at index
    [k]: the array is [s'] and the write index [i]; nothing from [i]
    on has been written, nor the entry before [k], and the entries
    kept below [i] are those met below [k]. *)
Definition compacting (s s' : list string) (i k : nat) : Prop :=
  length s' = length s ∧ 1 ≤ i ≤ k ∧ k ≤ length s
  ∧ (∀ j, i ≤ j ∨ k ≤ S j → s' !! j = s !! j)
  ∧ (∀ y, y ∈ take i s' ↔ y ∈ take k s).

(** * Properties *)

(** ** The model computes what the libraries document *)

Example Clean_examples :
  Filepath.Clean "a//b/./c/.." = "a/b"
  ∧ Filepath.Clean "/../a" = "/a"
  ∧ Filepath.Clean "../../a/../b" = "../../b"
  ∧ Filepath.Clean "abc/def/../../.." = ".."
  ∧ Filepath.Clean "" = "."
  ∧ Filepath.Clean "/" = "/"
  ∧ Filepath.Clean "a/.." = "."
  ∧ Filepath.Clean "..a/.b/" = "..a/.b"
  ∧ Filepath.Dir "pkg/file.go" = "pkg"
  ∧ Filepath.Dir "file.go" = "."
  ∧ Filepath.Dir "/file.go" = "/"
  ∧ Filepath.Ext "a/b.x/main.go" = ".go"
  ∧ Filepath.Ext "a/b.go/main" = ""
  ∧ Filepath.Ext "." = "."
  ∧ Filepath.Join ["a"; ""; "b/../c"] = "a/c"
  ∧ Filepath.Join [""; "."] = ".".
Proof. repeat split; reflexivity. Qed.

Example Replace_examples :
  Strings.Replace "https://h/a/b" "https://" "git@" 1 = "git@h/a/b"
  ∧ Strings.Replace "git@h/a/b" "/" ":" 1 = "git@h:a/b"
  ∧ Strings.Replace "abc" "x" "y" 1 = "abc"
  ∧ Strings.HasSuffix "x/go.mod" "go.mod" = true
  ∧ Strings.HasSuffix "o.mod" "go.mod" = false.
Proof. repeat split; reflexivity. Qed.

Example Compact_examples :
  Slices.Compact false (Slices.Sort ["b"; "a"; "c"; "a"; "b"; "a"])
    = (["a"; "b"; "c"; "b"; "b"; "c"], 3)
  ∧ Slices.Compact true (Slices.Sort ["b"; "a"; "c"; "a"; "b"; "a"])
    = (["a"; "b"; "c"; ""; ""; ""], 3)
  ∧ Slices.Compact false ["a"; "b"; "b"; "c"; "c"; "c"; "a"]
    = (["a"; "b"; "c"; "a"; "c"; "c"; "a"], 4)
  ∧ take 3 (Slices.Compact true (Slices.Sort ["b"; "a"; "c"; "a"; "b"; "a"])).1
    = ["a"; "b"; "c"]
  ∧ Slices.Compact true ["a"; "b"] = (["a"; "b"], 2)
  ∧ Slices.Compact true ["a"] = (["a"], 1)
  ∧ Slices.Compact true [] = ([], 0).
Proof. repeat split; reflexivity. Qed.

Example helpers_examples :
  convertHTTPtoSSH "https://github.com/user/repo"
    = ("git@github.com:user/repo", None)
  ∧ convertHTTPtoSSH "http://github.com/user/repo" = ("", Some ErrInvalidURL)
  ∧ convertHTTPtoSSH "https://github.com" = ("git@github.com", None)
  ∧ getPackageName "example.com/mod" "pkg/file.go" = "example.com/mod/pkg"
  ∧ getPackageName "example.com/mod" "file.go" = "example.com/mod"
  ∧ getPackageName "" "file.go" = "."
  ∧ getPackageName "m" "a/b/c.go" = "m/a/b".
Proof. repeat split; reflexivity. Qed.

(** ** Bytes and strings *)

#[global] Arguments bytesOf : simpl never.
#[global] Arguments ofBytes : simpl never.

Lemma ofBytes_cons (c : ascii) (b : bytes) : ofBytes (c :: b) = String c (ofBytes b).
Proof. reflexivity. Qed.

Lemma bytesOf_cons (c : ascii) (s : string) : bytesOf (String c s) = c :: bytesOf s.
Proof. reflexivity. Qed.

Lemma bytesOf_ofBytes (b : bytes) : bytesOf (ofBytes b) = b.
Proof. apply list_ascii_of_string_of_list_ascii. Qed.

Lemma ofBytes_bytesOf (s : string) : ofBytes (bytesOf s) = s.
Proof. apply string_of_list_ascii_of_string. Qed.

Lemma bytesOf_app (s t : string) : bytesOf (s +:+ t) = bytesOf s ++ bytesOf t.
Proof.
  induction s as [|c s IH]; [done|].
  change (bytesOf (String c s +:+ t)) with (c :: bytesOf (s +:+ t)).
  by rewrite IH.
Qed.

Lemma ofBytes_app (a b : bytes) : ofBytes (a ++ b) = ofBytes a +:+ ofBytes b.
Proof.
  induction a as [|c a IH]; [done|].
  change (ofBytes ((c :: a) ++ b)) with (String c (ofBytes (a ++ b))).
  by rewrite IH.
Qed.

Lemma bytesOf_inj (s t : string) : bytesOf s = bytesOf t → s = t.
Proof.
  intros H. rewrite <- (ofBytes_bytesOf s), <- (ofBytes_bytesOf t). by rewrite H.
Qed.

Lemma bytes_eqb_eq (a b : bytes) : Strings.eqb a b = true ↔ a = b.
Proof.
  revert b. induction a as [|x a IH]; intros [|y b]; simpl; try done.
  rewrite andb_true_iff, Ascii.eqb_eq, IH. split.
  - by intros [-> ->].
  - by intros [= -> ->].
Qed.

(** ** convertHTTPtoSSH *)

Lemma hasPrefix_app (p rest : bytes) : Strings.hasPrefix (p ++ rest) p = true.
Proof.
  unfold Strings.hasPrefix, Strings.slice. apply andb_true_iff. split.
  - apply Nat.leb_le. rewrite length_app. lia.
  - apply bytes_eqb_eq. rewrite Nat.sub_0_r, drop_0. by rewrite take_app_length.
Qed.

Lemma hasPrefix_inv (s p : bytes) :
  Strings.hasPrefix s p = true → s = p ++ drop (length p) s.
Proof.
  unfold Strings.hasPrefix, Strings.slice.
  intros [_ H%bytes_eqb_eq]%andb_true_iff.
  rewrite Nat.sub_0_r, drop_0 in H.
  rewrite <- H at 1. by rewrite take_drop.
Qed.

Lemma HasPrefix_beginsWith (s p : string) :
  Strings.HasPrefix s p = true ↔ beginsWith s p.
Proof.
  unfold Strings.HasPrefix, beginsWith. split.
  - intros H%hasPrefix_inv. exists (ofBytes (drop (length (bytesOf p)) (bytesOf s))).
    rewrite <- (ofBytes_bytesOf p) at 1. rewrite <- ofBytes_app, <- H.
    by rewrite ofBytes_bytesOf.
  - intros [rest ->]. rewrite bytesOf_app. apply hasPrefix_app.
Qed.

Lemma index_slash_cons (c : ascii) (l : bytes) :
  Strings.index (c :: l) ["/"%char]
  = if Ascii.eqb c "/"%char then Some 0 else S <$> Strings.index l ["/"%char].
Proof.
  cbn [Strings.index].
  replace (Strings.hasPrefix (c :: l) ["/"%char]) with (Ascii.eqb c "/"%char);
    [done|].
  unfold Strings.hasPrefix, Strings.slice. cbn. rewrite take_0. cbn.
  by rewrite andb_true_r.
Qed.

(** [Replace(s, "/", ":", 1)] is the spec's first-slash replacement. *)
Lemma replace_slash_colon (s : string) :
  ofBytes (Strings.replace (bytesOf s) ["/"%char] [":"%char] 1)
  = firstSlashToColon s.
Proof.
  induction s as [|c s IH]; [done|].
  change (bytesOf (String c s)) with (c :: bytesOf s).
  cbn [Strings.replace firstSlashToColon] in *.
  rewrite index_slash_cons.
  destruct (Ascii.eqb c "/"%char) eqn:Hc.
  - unfold Strings.slice. cbn. by rewrite drop_0, ofBytes_cons, ofBytes_bytesOf.
  - destruct (Strings.index (bytesOf s) ["/"%char]) as [j|] eqn:Hj.
    + unfold Strings.slice in *. cbn in *.
      rewrite Nat.sub_0_r, ?drop_0 in *. by rewrite ofBytes_cons, IH.
    + cbn. by rewrite ofBytes_cons, IH.
Qed.

Lemma index_hasPrefix (s p : bytes) :
  Strings.hasPrefix s p = true → Strings.index s p = Some 0.
Proof. intros H. destruct s; cbn [Strings.index]; by rewrite H. Qed.

Lemma convert_https (rest : string) :
  convertHTTPtoSSH ("https://" +:+ rest)
  = ("git@" +:+ firstSlashToColon rest, None).
Proof.
  unfold convertHTTPtoSSH.
  assert (Strings.HasPrefix ("https://" +:+ rest) "https://" = true) as ->.
  { apply HasPrefix_beginsWith. by exists rest. }
  cbn [negb].
  assert (Strings.Replace ("https://" +:+ rest) "https://" "git@" 1
          = "git@" +:+ rest) as ->.
  { unfold Strings.Replace. cbn [String.eqb Ascii.eqb Bool.eqb].
    rewrite bytesOf_app. unfold Strings.replace.
    rewrite (index_hasPrefix _ _ (hasPrefix_app _ _)).
    unfold Strings.slice. rewrite Nat.sub_0_r, take_0. cbn [app].
    rewrite Nat.add_0_l, drop_app_length.
    rewrite ofBytes_app, !ofBytes_bytesOf. done. }
  unfold Strings.Replace. cbn [String.eqb Ascii.eqb Bool.eqb].
  change (bytesOf "/") with ["/"%char]. change (bytesOf ":") with [":"%char].
  by rewrite replace_slash_colon.
Qed.

Lemma convert_other (s : string) :
  ¬ beginsWith s "https://" → convertHTTPtoSSH s = ("", Some ErrInvalidURL).
Proof.
  intros H. unfold convertHTTPtoSSH.
  destruct (Strings.HasPrefix s "https://") eqn:Hp; [|done].
  by apply HasPrefix_beginsWith in Hp.
Qed.

(** C10: on every string that begins with "https://",
    [convertHTTPtoSSH] succeeds and returns "git@" followed by the rest
    of the string with its first "/" turned into ":"; on every other
    string it returns the error and the empty URL. *)
Theorem convertHTTPtoSSH_correct (s : string) :
  (∀ rest, s = "https://" +:+ rest →
     convertHTTPtoSSH s = ("git@" +:+ firstSlashToColon rest, None))
  ∧ (¬ beginsWith s "https://" →
     convertHTTPtoSSH s = ("", Some ErrInvalidURL)).
Proof.
  split.
  - intros rest ->. apply convert_https.
  - apply convert_other.
Qed.

Lemma convertHTTPtoSSH_correct_witness :
  convertHTTPtoSSH "https://github.com/user/repo"
    = ("git@github.com:user/repo", None)
  ∧ convertHTTPtoSSH "http://github.com/user/repo" = ("", Some ErrInvalidURL).
Proof.
  split.
  - apply (proj1 (convertHTTPtoSSH_correct "https://github.com/user/repo")
             "github.com/user/repo").
    reflexivity.
  - apply (proj2 (convertHTTPtoSSH_correct "http://github.com/user/repo")).
    intros [rest H]. vm_compute in H. discriminate H.
Defined.

(** ** main: the argument check *)

(** C6: when the location argument does not begin with "https://", the
    run ends in the fatal error of line 39 (or already in that of line
    30) having only probed for dot: no clone is attempted. *)
Theorem bad_url_rejected_before_clone
        (Quote : string → string) (w : World) (prog arg : string)
        (rest : list string) :
  Args w = prog :: arg :: rest →
  ¬ beginsWith arg "https://" →
  main Quote w
  = ([EvExec ["dot"; "-V"]],
     inl (if dotVersionOk w then FatalURL ErrInvalidURL else FatalGraphviz))
  ∧ ∀ url, EvClone url ∉ (main Quote w).1.
Proof.
  intros HA Hbad.
  assert (main Quote w
          = ([EvExec ["dot"; "-V"]],
             inl (if dotVersionOk w then FatalURL ErrInvalidURL
                  else FatalGraphviz))) as Hmain.
  { unfold main. rewrite HA, (convert_other _ Hbad).
    by destruct (dotVersionOk w). }
  split; [done|].
  intros url. rewrite Hmain. cbn.
  intros [H|H]%elem_of_cons; [discriminate H | by apply elem_of_nil in H].
Qed.

Lemma bad_url_rejected_before_clone_witness :
  main plainQuote (worldOf true "http://github.com/u/r" scenario)
  = ([EvExec ["dot"; "-V"]], inl (FatalURL ErrInvalidURL))
  ∧ ∀ url, EvClone url ∉
             (main plainQuote (worldOf true "http://github.com/u/r" scenario)).1.
Proof.
  apply (bad_url_rejected_before_clone plainQuote
           (worldOf true "http://github.com/u/r" scenario)
           "go-dep-visual" "http://github.com/u/r" []).
  - reflexivity.
  - intros [rest H]. vm_compute in H. discriminate H.
Defined.

(** ** Runs and walks *)

Lemma bind_inl {A B} (m : Run A) (f : A → Run B) t e :
  m = (t, inl e) → m ≫= f = (t, inl e).
Proof. by intros ->. Qed.

Lemma bind_inr {A B} (m : Run A) (f : A → Run B) t a :
  m = (t, inr a) → m ≫= f = (t ++ (f a).1, (f a).2).
Proof. intros ->. unfold mbind, Run_bind. by destruct (f a). Qed.

Lemma Run_mret_bind {A B} (a : A) (k : A → Run B) : (mret a ≫= k) = k a.
Proof. unfold mret, Run_ret, mbind, Run_bind. by destruct (k a). Qed.

Lemma bind_aborts {A B} (m : Run A) (f : A → Run B) e :
  m.2 = inl e → (m ≫= f).2 = inl e.
Proof. destruct m as [t [e'|a]]; cbn; [by intros [= ->] | done]. Qed.

Lemma Walk_cons {S} (fn : S → File → Run (error + S)) f tree s :
  Walk fn (f :: tree) s
  = r ← fn s f; match r with
                | inl err => mret (inl err)
                | inr s' => Walk fn tree s'
                end.
Proof. done. Qed.

Lemma Walk_stopped {S} (fn : S → File → Run (error + S)) tree f :
  f ∈ tree → (∀ s, stopped (fn s f)) → ∀ s, stopped (Walk fn tree s).
Proof.
  intros Hin Hf. induction tree as [|f0 tree IH]; intros s.
  { by apply elem_of_nil in Hin. }
  rewrite Walk_cons.
  destruct (fn s f0) as [t [e|[err|s']]] eqn:Hfn.
  - by rewrite (bind_inl _ _ _ _ eq_refl).
  - by rewrite (bind_inr _ _ _ _ eq_refl).
  - rewrite (bind_inr _ _ _ _ eq_refl). unfold stopped. cbn.
    apply elem_of_cons in Hin as [->|Hin].
    + specialize (Hf s). rewrite Hfn in Hf. done.
    + by apply IH.
Qed.

Lemma Walk_app {S} (fn : S → File → Run (error + S)) pre post s t s' :
  Walk fn pre s = (t, inr (inr s')) →
  Walk fn (pre ++ post) s = (t ++ (Walk fn post s').1, (Walk fn post s').2).
Proof.
  revert s t. induction pre as [|f pre IH]; intros s t.
  - intros H. cbv [Walk mret Run_ret] in H. injection H as <- <-.
    cbn [app]. by destruct (Walk fn post s).
  - rewrite <- app_comm_cons, !Walk_cons.
    destruct (fn s f) as [t0 [e|[err|s0]]] eqn:Hfn.
    + by rewrite (bind_inl _ _ _ _ eq_refl).
    + by rewrite (bind_inr _ _ _ _ eq_refl).
    + rewrite !(bind_inr _ _ _ _ eq_refl).
      destruct (Walk fn pre s0) as [t1 r1] eqn:Hpre. cbn. intros [= <- ->].
      rewrite (IH _ _ Hpre). cbn. by rewrite app_assoc.
Qed.


Lemma graphStage_stopped M tree :
  stopped (Walk (addFile M) tree ∅) → ∃ e, (graphStage M tree).2 = inl e.
Proof.
  unfold graphStage, stopped.
  destruct (Walk (addFile M) tree ∅) as [t [e|[err|m]]]; cbn; [eauto..|done].
Qed.

#[global] Arguments moduleStage : simpl never.
#[global] Arguments graphStage : simpl never.
#[global] Arguments dedupPass : simpl never.
#[global] Arguments render : simpl never.

(** How [main] goes on once the clone has succeeded. *)
Lemma main_aborts_in_stage (Quote : string → string) (w : World)
      prog arg rest tree :
  Args w = prog :: arg :: rest →
  remote w (convertHTTPtoSSH arg).1 = Some tree →
  (∃ e, (moduleStage tree).2 = inl e)
  ∨ (∀ M, ∃ e, (graphStage M tree).2 = inl e) →
  ∃ e, (main Quote w).2 = inl e.
Proof.
  intros HA HR Hstage. unfold main. rewrite HA.
  destruct (convertHTTPtoSSH arg) as [url [err|]] eqn:Hc; cbn in HR.
  { destruct (dotVersionOk w); cbn; eauto. }
  rewrite HR.
  destruct (dotVersionOk w); [|cbn; eauto].
  destruct (keyOpenOk w); [|cbn; eauto].
  destruct (keyReadOk w); [|cbn; eauto].
  destruct (publicKeysOk w); [|cbn; eauto].
  destruct (worktreeOk w); [|cbn; eauto].
  destruct (moduleStage tree) as [t1 [e1|M]] eqn:HM.
  { cbn. eauto. }
  destruct Hstage as [[e He]|Hg]; [done|].
  destruct (Hg M) as [e He].
  destruct (graphStage M tree) as [t2 [e2|g]] eqn:HG; [|done].
  cbn. rewrite HG. cbn. eauto.
Qed.

(** ** main: parse failures *)

Lemma addFile_unparsable M g f : unparsable f → addFile M g f = abort FatalSourceParse.
Proof.
  intros (Hw & He & Ho & Hi). unfold addFile. by rewrite Hw, He, Ho, Hi.
Qed.


(** C7: a .go file whose imports cannot be parsed ends the run.  When
    the files walked before it were read without error, the walk ends
    in the fatal error of line 129 whatever files come after it; and in
    every case [main] ends in an abort, never in a completed run. *)
Theorem unparsable_source_is_fatal
        (Quote : string → string) (w : World) (prog arg : string)
        (rest : list string) (pre post : list File) (f : File) :
  Args w = prog :: arg :: rest →
  remote w (convertHTTPtoSSH arg).1 = Some (pre ++ f :: post) →
  unparsable f →
  (∀ M t g, Walk (addFile M) pre ∅ = (t, inr (inr g)) →
            graphStage M (pre ++ f :: post) = (t, inl FatalSourceParse))
  ∧ ∃ e, (main Quote w).2 = inl e.
Proof.
  intros HA HR Hf. split.
  - intros M t g Hpre. unfold graphStage.
    rewrite (Walk_app _ _ _ _ _ _ Hpre), Walk_cons, (addFile_unparsable _ _ _ Hf).
    cbn. by rewrite app_nil_r.
  - apply (main_aborts_in_stage Quote w prog arg rest (pre ++ f :: post) HA HR).
    right. intros M. apply graphStage_stopped.
    apply (Walk_stopped _ _ f).
    + apply elem_of_app. right. apply elem_of_cons. by left.
    + intros g. by rewrite (addFile_unparsable _ _ _ Hf).
Qed.

Lemma unparsable_source_is_fatal_witness :
  (∀ M t g,
     Walk (addFile M) [modFile "go.mod" (ModPath "m"); goFile "a.go" ["fmt"]] ∅
     = (t, inr (inr g)) →
     graphStage M ([modFile "go.mod" (ModPath "m"); goFile "a.go" ["fmt"]]
                   ++ dirEntry "b.go" :: [goFile "c.go" ["os"]])
     = (t, inl FatalSourceParse))
  ∧ ∃ e, (main plainQuote
            (worldOf true "https://github.com/u/r"
               ([modFile "go.mod" (ModPath "m"); goFile "a.go" ["fmt"]]
                ++ dirEntry "b.go" :: [goFile "c.go" ["os"]]))).2 = inl e.
Proof.
  apply (unparsable_source_is_fatal plainQuote
           (worldOf true "https://github.com/u/r"
              ([modFile "go.mod" (ModPath "m"); goFile "a.go" ["fmt"]]
               ++ dirEntry "b.go" :: [goFile "c.go" ["os"]]))
           "go-dep-visual" "https://github.com/u/r" []).
  - reflexivity.
  - reflexivity.
  - repeat split; reflexivity.
Defined.

(** ** main: the module name *)

Lemma findModule_skip m f :
  walkErr f = false → Strings.HasSuffix (fpath f) "go.mod" = false →
  findModule m f = ([], inr (inr m)).
Proof. intros Hw Hs. unfold findModule. by rewrite Hw, Hs. Qed.

Lemma Walk_findModule_noGoMod tree m :
  noGoMod tree → Walk findModule tree m = ([], inr (inr m)).
Proof.
  induction tree as [|f tree IH]; intros Hno; [done|].
  destruct (Hno f) as [Hw Hs]; [apply elem_of_cons; by left|].
  rewrite Walk_cons, (bind_inr _ _ _ _ (findModule_skip m f Hw Hs)), IH; [done|].
  intros f' Hf'. apply Hno. apply elem_of_cons. by right.
Qed.



(** A run in which nothing outside the walks fails ends well once both
    stages have succeeded. *)
Lemma main_completes (Quote : string → string) (w : World)
      prog arg rest url tree M t g :
  Args w = prog :: arg :: rest →
  convertHTTPtoSSH arg = (url, None) →
  dotVersionOk w = true → keyOpenOk w = true → keyReadOk w = true →
  publicKeysOk w = true → remote w url = Some tree → worktreeOk w = true →
  writeOk w = true → dotRunOk w = true →
  moduleStage tree = ([], inr M) →
  graphStage M tree = (t, inr g) →
  (main Quote w).2 = inr tt.
Proof.
  intros HA Hc H1 H2 H3 H4 HR H5 H6 H7 HM HG.
  unfold main. rewrite HA, Hc, H1, H2, H3, H4, HR, H5, H6, H7.
  cbn. rewrite HM. cbn. rewrite HG. reflexivity.
Qed.



(** ** The dependency map after the walk *)

Lemma extends_refl g : extends g g.
Proof. intros P deps H. by exists deps. Qed.

Lemma extends_trans g1 g2 g3 : extends g1 g2 → extends g2 g3 → extends g1 g3.
Proof.
  intros H12 H23 P deps H.
  destruct (H12 _ _ H) as (deps2 & H2 & Hs2).
  destruct (H23 _ _ H2) as (deps3 & H3 & Hs3).
  exists deps3. split; [done|]. by etrans.
Qed.

Lemma extends_is_Some g g' k : extends g g' → is_Some (g !! k) → is_Some (g' !! k).
Proof. intros He [deps H]. destruct (He _ _ H) as (deps' & -> & _). eauto. Qed.

Lemma extends_records g g' P d : extends g g' → records g P d → records g' P d.
Proof.
  intros He (deps & H & Hd). destruct (He _ _ H) as (deps' & H' & Hs).
  exists deps'. split; [done|]. by apply Hs.
Qed.

Lemma ensureKey_is_Some k g : is_Some (ensureKey k g !! k).
Proof.
  unfold ensureKey. destruct (g !! k) eqn:H; [by rewrite H|].
  rewrite lookup_insert_eq. eauto.
Qed.

Lemma ensureKey_extends k g : extends g (ensureKey k g).
Proof.
  unfold ensureKey. destruct (g !! k) eqn:H; [apply extends_refl|].
  intros P deps HP. exists deps. split; [|done].
  rewrite lookup_insert_ne; [done|]. intros ->. congruence.
Qed.

Lemma ensureKey_closed k g : closed g → closed (ensureKey k g).
Proof.
  intros Hc P deps d HP Hd. unfold ensureKey in *.
  destruct (g !! k) eqn:H; [by eapply Hc|].
  destruct (decide (k = P)) as [->|Hne].
  - rewrite lookup_insert_eq in HP. injection HP as <-. by apply elem_of_nil in Hd.
  - rewrite lookup_insert_ne in HP by done.
    apply (extends_is_Some g); [|by eapply Hc].
    intros P' deps' H'. exists deps'. split; [|done].
    rewrite lookup_insert_ne; [done|]. intros ->. congruence.
Qed.

Lemma recordImport_extends name d g : extends g (recordImport name d g).
Proof.
  apply (extends_trans _ (ensureKey d g)); [apply ensureKey_extends|].
  intros P deps HP. unfold recordImport.
  destruct (decide (name = P)) as [->|Hne].
  - rewrite lookup_insert_eq, HP. eexists. split; [done|].
    intros x Hx. apply elem_of_app. by left.
  - rewrite lookup_insert_ne by done. by exists deps.
Qed.

Lemma recordImport_records name d g : records (recordImport name d g) name d.
Proof.
  unfold records, recordImport. rewrite lookup_insert_eq. eexists. split; [done|].
  apply elem_of_app. right. apply list_elem_of_singleton. done.
Qed.

Lemma recordImport_closed name d g : closed g → closed (recordImport name d g).
Proof.
  intros Hc%(ensureKey_closed d) P deps x HP Hx.
  pose proof (ensureKey_is_Some d g) as Hd.
  assert (∀ k, is_Some (ensureKey d g !! k) → is_Some (recordImport name d g !! k))
    as Hmono.
  { intros k Hk. unfold recordImport.
    destruct (decide (name = k)) as [->|Hne];
      [rewrite lookup_insert_eq; eauto | by rewrite lookup_insert_ne]. }
  unfold recordImport in HP.
  destruct (decide (name = P)) as [->|Hne].
  - rewrite lookup_insert_eq in HP. injection HP as <-.
    apply elem_of_app in Hx as [Hx|Hx%list_elem_of_singleton].
    + apply Hmono. destruct (ensureKey d g !! P) as [old|] eqn:HP'; cbn in Hx.
      * by eapply Hc.
      * by apply elem_of_nil in Hx.
    + subst x. by apply Hmono.
  - rewrite lookup_insert_ne in HP by done. apply Hmono. by eapply Hc.
Qed.

Lemma addImports_inr name specs g t g' :
  addImports name specs g = (t, inr g') →
  closed g →
  closed g' ∧ extends g g' ∧ ∀ v, v ∈ specs → records g' name (importPath v).
Proof.
  revert g t. induction specs as [|v specs IH]; intros g t Hrun Hc.
  - injection Hrun as <- <-. split; [done|]. split; [apply extends_refl|].
    intros v Hv. by apply elem_of_nil in Hv.
  - cbn [addImports] in Hrun. unfold unquote in Hrun.
    destruct (String.length v <? 2); [discriminate Hrun|].
    rewrite (bind_inr _ _ [] (importPath v) eq_refl) in Hrun.
    destruct (addImports name specs (recordImport name (importPath v) g))
      as [t1 r1] eqn:Hrest.
    cbn in Hrun. injection Hrun as <- ->.
    destruct (IH _ _ Hrest (recordImport_closed _ _ _ Hc)) as (Hc' & He' & Hr').
    split; [done|]. split.
    + eapply extends_trans; [apply recordImport_extends|done].
    + intros v' [->|Hv']%elem_of_cons; [|by apply Hr'].
      eapply extends_records; [done|]. apply recordImport_records.
Qed.

(** What a visit that lets the walk go on has done to the map. *)
Lemma addFile_inr M g f t g' :
  addFile M g f = (t, inr (inr g')) →
  closed g →
  closed g' ∧ extends g g'
  ∧ (Filepath.Ext (fpath f) = ".go" →
     is_Some (g' !! getPackageName M (fpath f))
     ∧ ∃ specs, imports f = Some specs
         ∧ ∀ v, v ∈ specs →
             records g' (getPackageName M (fpath f)) (importPath v)).
Proof.
  unfold addFile. intros Hrun Hc.
  destruct (walkErr f); [discriminate Hrun|].
  destruct (String.eqb (Filepath.Ext (fpath f)) ".go") eqn:Hext.
  - destruct (openErr f); [discriminate Hrun|].
    destruct (imports f) as [specs|]; [|discriminate Hrun].
    set (name := getPackageName M (fpath f)) in *.
    destruct (addImports name specs (ensureKey name g)) as [t1 [e|g1]] eqn:Hadd;
      [discriminate Hrun|].
    cbn in Hrun. injection Hrun as <- <-.
    destruct (addImports_inr _ _ _ _ _ Hadd (ensureKey_closed _ _ Hc))
      as (Hc1 & He1 & Hr1).
    split; [done|]. split.
    + eapply extends_trans; [apply ensureKey_extends|done].
    + intros _. split; [|by exists specs].
      eapply extends_is_Some; [done|]. apply ensureKey_is_Some.
  - injection Hrun as <- <-. split; [done|]. split; [apply extends_refl|].
    intros He. rewrite He in Hext. discriminate Hext.
Qed.

Lemma Walk_addFile_inr M tree g t g' :
  Walk (addFile M) tree g = (t, inr (inr g')) →
  closed g →
  closed g' ∧ extends g g'
  ∧ ∀ f, f ∈ tree → Filepath.Ext (fpath f) = ".go" →
      is_Some (g' !! getPackageName M (fpath f))
      ∧ ∃ specs, imports f = Some specs
          ∧ ∀ v, v ∈ specs →
              records g' (getPackageName M (fpath f)) (importPath v).
Proof.
  revert g t. induction tree as [|f0 tree IH]; intros g t Hrun Hc.
  - injection Hrun as <- <-. split; [done|]. split; [apply extends_refl|].
    intros f Hf. by apply elem_of_nil in Hf.
  - rewrite Walk_cons in Hrun.
    destruct (addFile M g f0) as [t0 [e|[err|g0]]] eqn:H0;
      [discriminate Hrun..|].
    rewrite (bind_inr _ _ _ _ eq_refl) in Hrun.
    destruct (Walk (addFile M) tree g0) as [t1 r1] eqn:Hrest.
    cbn in Hrun. injection Hrun as <- ->.
    destruct (addFile_inr _ _ _ _ _ H0 Hc) as (Hc0 & He0 & Hf0).
    destruct (IH _ _ Hrest Hc0) as (Hc' & He' & Hf').
    split; [done|]. split; [by eapply extends_trans|].
    intros f [->|Hf]%elem_of_cons Hext; [|by apply Hf'].
    destruct (Hf0 Hext) as (Hk & specs & Hi & Hr).
    split; [by eapply extends_is_Some|].
    exists specs. split; [done|]. intros v Hv.
    eapply extends_records; [done|]. by apply Hr.
Qed.

Lemma graphStage_inr M tree t g :
  graphStage M tree = (t, inr g) → Walk (addFile M) tree ∅ = (t, inr (inr g)).
Proof.
  unfold graphStage.
  destruct (Walk (addFile M) tree ∅) as [t0 [e|[err|g0]]]; cbn;
    [discriminate..|].
  rewrite app_nil_r. by intros [= -> ->].
Qed.

Lemma closed_empty : closed ∅.
Proof. intros P deps d H. by rewrite lookup_empty in H. Qed.

(** ** The sort-and-compact pass *)

Lemma insertSorted_length x l : length (Slices.insertSorted x l) = S (length l).
Proof.
  induction l as [|y l IH]; cbn; [done|].
  destruct (String.leb x y); cbn; [done|]. by rewrite IH.
Qed.

Lemma Sort_cons x s :
  Slices.Sort (x :: s) = Slices.insertSorted x (Slices.Sort s).
Proof. reflexivity. Qed.

Lemma Sort_length s : length (Slices.Sort s) = length s.
Proof.
  induction s as [|x s IH]; [done|].
  by rewrite Sort_cons, insertSorted_length, IH.
Qed.

Lemma insertSorted_elem x y l : y ∈ Slices.insertSorted x l ↔ y = x ∨ y ∈ l.
Proof.
  induction l as [|z l IH]; cbn.
  - rewrite list_elem_of_singleton, elem_of_nil. tauto.
  - destruct (String.leb x z).
    + by rewrite elem_of_cons.
    + rewrite !elem_of_cons, IH. tauto.
Qed.

Lemma Sort_elem x s : x ∈ Slices.Sort s ↔ x ∈ s.
Proof.
  induction s as [|y s IH]; [done|].
  by rewrite Sort_cons, insertSorted_elem, elem_of_cons, IH.
Qed.

Lemma compactStep_length st k :
  length (Slices.compactStep st k).1 = length st.1.
Proof.
  destruct st as [s i]. unfold Slices.compactStep.
  destruct (s !! k) as [x|]; [|done].
  destruct (s !! (k - 1)) as [y|]; [|done].
  destruct (String.eqb x y); [done|].
  destruct (i =? k); [done|]. cbn. by rewrite length_insert.
Qed.

Lemma elem_of_insert_inv (l : list string) i x y :
  y ∈ <[i := x]> l → y = x ∨ y ∈ l.
Proof.
  revert i. induction l as [|z l IH]; intros [|i]; cbn;
    rewrite ?elem_of_cons; try tauto.
  intros [->|H]; [tauto|]. destruct (IH _ H); tauto.
Qed.

Lemma compactStep_elem st k y :
  y ∈ (Slices.compactStep st k).1 → y ∈ st.1.
Proof.
  destruct st as [s i]. unfold Slices.compactStep.
  destruct (s !! k) as [x|] eqn:Hk; [|done].
  destruct (s !! (k - 1)) as [z|]; [|done].
  destruct (String.eqb x z); [done|].
  destruct (i =? k); [done|]. cbn.
  intros [->|H]%elem_of_insert_inv; [|done].
  apply list_elem_of_lookup. eauto.
Qed.

Lemma compactLoop_length ks st :
  length (foldl Slices.compactStep st ks).1 = length st.1.
Proof.
  revert st. induction ks as [|k ks IH]; intros st; [done|].
  cbn. by rewrite IH, compactStep_length.
Qed.

Lemma compactLoop_elem ks st y :
  y ∈ (foldl Slices.compactStep st ks).1 → y ∈ st.1.
Proof.
  revert st. induction ks as [|k ks IH]; intros st; [done|].
  cbn. intros H%IH. by eapply compactStep_elem.
Qed.

(** The backing array keeps its length: what [Compact] shortens is
    only the slice it returns. *)
Lemma Compact_length clear s : length (Slices.Compact clear s).1 = length s.
Proof.
  unfold Slices.Compact. destruct (length s <? 2); [done|].
  pose proof (compactLoop_length (seq 1 (length s - 1)) (s, 1)) as Hlen.
  destruct (foldl Slices.compactStep (s, 1) (seq 1 (length s - 1))) as [s' i].
  cbn in *. destruct clear; [|done].
  rewrite length_app, length_take, length_replicate. lia.
Qed.

Lemma Compact_keep_elem s y : y ∈ (Slices.Compact false s).1 → y ∈ s.
Proof.
  unfold Slices.Compact. destruct (length s <? 2); [done|].
  pose proof (compactLoop_elem (seq 1 (length s - 1)) (s, 1) y) as Hel.
  destruct (foldl Slices.compactStep (s, 1) (seq 1 (length s - 1))) as [s' i].
  done.
Qed.

Lemma sortCompact_length clear deps : length (sortCompact clear deps) = length deps.
Proof. unfold sortCompact. by rewrite Compact_length, Sort_length. Qed.

Lemma sortCompact_keep_elem deps y : y ∈ sortCompact false deps → y ∈ deps.
Proof. unfold sortCompact. intros H%Compact_keep_elem. by apply Sort_elem. Qed.

Lemma dedupPass_lookup clear g P :
  dedupPass clear g !! P = sortCompact clear <$> g !! P.
Proof. unfold dedupPass. apply lookup_fmap. Qed.

(** With the Compact of Go 1.21 the pass keeps the map free of
    dangling edges: it only moves entries around. *)
Lemma dedupPass_keep_closed g : closed g → closed (dedupPass false g).
Proof.
  intros Hc P deps d HP Hd. rewrite dedupPass_lookup in *.
  destruct (g !! P) as [deps0|] eqn:HP0; [|done].
  injection HP as <-. apply sortCompact_keep_elem in Hd.
  destruct (Hc _ _ _ HP0 Hd) as [x ->]. cbn. eauto.
Qed.

(** With the Compact of Go 1.22 the cleared tail shows up as entries
    "" that are no keys. *)
Example dedupPass_clear_not_closed :
  closed (<["m" := ["fmt"; "fmt"]]> (<["fmt" := []]> ∅))
  ∧ ¬ closed (dedupPass true (<["m" := ["fmt"; "fmt"]]> (<["fmt" := []]> ∅))).
Proof.
  split.
  - intros P deps d HP Hd.
    destruct (decide (P = "m")) as [->|HnM].
    + vm_compute in HP. injection HP as <-.
      assert (d = "fmt") as ->; [|vm_compute; eauto].
      apply elem_of_cons in Hd as [->|Hd]; [done|].
      apply elem_of_cons in Hd as [->|Hd]; [done|]. by apply elem_of_nil in Hd.
    + rewrite lookup_insert_ne in HP by done.
      destruct (decide (P = "fmt")) as [->|HnF].
      * vm_compute in HP. injection HP as <-. by apply elem_of_nil in Hd.
      * rewrite lookup_insert_ne in HP by done. by rewrite lookup_empty in HP.
  - intros Hc.
    destruct (Hc "m" ["fmt"; ""] "") as [x Hx]; [by vm_compute| |by vm_compute in Hx].
    apply elem_of_cons. right. apply elem_of_cons. by left.
Qed.




(** C1, the code falls short of the claim: line 150 drops the slice
    that [slices.Compact] returns, so the slice kept in the map is as
    long as before the pass, whatever the library version.  For the
    imports a, a, b the package keeps three entries: a, b, b with the
    Compact of Go 1.21 and a, b, "" with the one of Go 1.22; the same
    happens to an import declared in two files of one package. *)
Theorem dedup_pass_keeps_length :
  (∀ clear g P,
     dedupPass clear g !! P = sortCompact clear <$> g !! P)
  ∧ (∀ clear deps, length (sortCompact clear deps) = length deps)
  ∧ builder false "m" [goFile "main.go" ["a"; "a"; "b"]]
    = Some (<["m" := ["a"; "b"; "b"]]> (<["a" := []]> (<["b" := []]> ∅)))
  ∧ builder true "m" [goFile "main.go" ["a"; "a"; "b"]]
    = Some (<["m" := ["a"; "b"; ""]]> (<["a" := []]> (<["b" := []]> ∅)))
  ∧ builder false "m" [goFile "x.go" ["fmt"]; goFile "y.go" ["fmt"]]
    = Some (<["m" := ["fmt"; "fmt"]]> (<["fmt" := []]> ∅))
  ∧ builder true "m" [goFile "x.go" ["fmt"]; goFile "y.go" ["fmt"]]
    = Some (<["m" := ["fmt"; ""]]> (<["fmt" := []]> ∅)).
Proof.
  split; [apply dedupPass_lookup|].
  split; [apply sortCompact_length|].
  repeat split; vm_compute; reflexivity.
Qed.

(** ** Feeding the stream twice *)

(** What a walk does to the map does not depend on what the map held
    before: it appends the same entries under the same keys.  So a
    second walk over the same files appends every slice to itself. *)

Lemma appended_lookup g x k :
  appended g x !! k
  = match g !! k, x !! k with
    | Some a, Some b => Some (a ++ b)
    | Some a, None => Some a
    | None, o => o
    end.
Proof.
  unfold appended. rewrite lookup_union_with.
  by destruct (g !! k), (x !! k).
Qed.

Lemma appended_empty g : appended g ∅ = g.
Proof.
  apply map_eq. intros k. rewrite appended_lookup, lookup_empty.
  by destruct (g !! k).
Qed.

Lemma appended_self g : appended g g = (λ l, l ++ l) <$> g.
Proof.
  apply map_eq. intros k. rewrite appended_lookup, lookup_fmap.
  by destruct (g !! k).
Qed.

Lemma ensureKey_appended g x k :
  ensureKey k (appended g x) = appended g (ensureKey k x).
Proof.
  unfold ensureKey. rewrite appended_lookup.
  destruct (x !! k) as [b|] eqn:Hx.
  { by destruct (g !! k). }
  destruct (g !! k) as [a|] eqn:Hg.
  - apply map_eq. intros k'. rewrite !appended_lookup.
    destruct (decide (k = k')) as [<-|Hne].
    + by rewrite lookup_insert_eq, Hg, Hx, app_nil_r.
    + by rewrite lookup_insert_ne.
  - apply map_eq. intros k'.
    destruct (decide (k = k')) as [<-|Hne].
    + by rewrite appended_lookup, !lookup_insert_eq, Hg.
    + by rewrite appended_lookup, !lookup_insert_ne, appended_lookup.
Qed.

Lemma recordImport_appended g x name d :
  recordImport name d (appended g x) = appended g (recordImport name d x).
Proof.
  unfold recordImport. rewrite ensureKey_appended.
  set (x' := ensureKey d x). apply map_eq. intros k.
  destruct (decide (name = k)) as [<-|Hne].
  - rewrite lookup_insert_eq, !appended_lookup, lookup_insert_eq.
    destruct (g !! name) as [a|], (x' !! name) as [b|]; cbn;
      by rewrite <- ?app_assoc.
  - by rewrite lookup_insert_ne, !appended_lookup, lookup_insert_ne.
Qed.

Lemma addImports_appended g name specs x t x' :
  addImports name specs x = (t, inr x') →
  addImports name specs (appended g x) = (t, inr (appended g x')).
Proof.
  revert x t. induction specs as [|v specs IH]; intros x t Hrun.
  - cbv [addImports mret Run_ret] in *. by injection Hrun as <- <-.
  - cbn [addImports] in *. unfold unquote in *.
    destruct (String.length v <? 2); [discriminate Hrun|].
    rewrite Run_mret_bind in Hrun |- *.
    by rewrite recordImport_appended, (IH _ _ Hrun).
Qed.

Lemma addFile_appended M g f x t x' :
  addFile M x f = (t, inr (inr x')) →
  addFile M (appended g x) f = (t, inr (inr (appended g x'))).
Proof.
  unfold addFile. destruct (walkErr f); [discriminate|].
  destruct (String.eqb (Filepath.Ext (fpath f)) ".go"); [|by intros [= <- <-]].
  destruct (openErr f); [discriminate|].
  destruct (imports f) as [specs|]; [|discriminate].
  set (name := getPackageName M (fpath f)).
  destruct (addImports name specs (ensureKey name x)) as [t1 [e|x1]] eqn:Hadd;
    [discriminate|].
  cbn. intros [= <- <-].
  by rewrite ensureKey_appended, (addImports_appended _ _ _ _ _ _ Hadd).
Qed.

Lemma Walk_appended M g tree x t x' :
  Walk (addFile M) tree x = (t, inr (inr x')) →
  Walk (addFile M) tree (appended g x) = (t, inr (inr (appended g x'))).
Proof.
  revert x t. induction tree as [|f tree IH]; intros x t Hrun.
  - cbv [Walk mret Run_ret] in *. by injection Hrun as <- <-.
  - rewrite Walk_cons in *.
    destruct (addFile M x f) as [t0 [e|[err|x0]]] eqn:H0; [discriminate Hrun..|].
    rewrite (bind_inr _ _ _ _ eq_refl) in Hrun.
    rewrite (bind_inr _ _ _ _ (addFile_appended _ g _ _ _ _ H0)).
    destruct (Walk (addFile M) tree x0) as [t1 r1] eqn:Hrest.
    cbn in Hrun. injection Hrun as <- ->.
    by rewrite (IH _ _ Hrest).
Qed.

(** Fed twice, the walk leaves every slice appended to itself. *)
Lemma graphStage_twice M tree t g :
  graphStage M tree = (t, inr g) →
  graphStage M (tree ++ tree) = (t ++ t, inr ((λ l, l ++ l) <$> g)).
Proof.
  intros Hrun%graphStage_inr. unfold graphStage.
  rewrite (Walk_app _ _ _ _ _ _ Hrun).
  pose proof (Walk_appended M g tree ∅ t g Hrun) as H2.
  rewrite appended_empty in H2. rewrite H2, appended_self. cbn.
  by rewrite app_nil_r.
Qed.

(** So the map that is rendered holds, under every key, a slice twice
    as long as after one feeding: the pass does not shorten it. *)
Lemma builder_twice_lengths clear M tree t g P deps :
  graphStage M tree = (t, inr g) → g !! P = Some deps →
  ∃ once twice,
    builder clear M tree = Some once
    ∧ builder clear M (tree ++ tree) = Some twice
    ∧ (∃ l, once !! P = Some l ∧ length l = length deps)
    ∧ (∃ l, twice !! P = Some l ∧ length l = 2 * length deps).
Proof.
  intros Hrun HP. unfold builder.
  rewrite (graphStage_twice _ _ _ _ Hrun), Hrun.
  eexists _, _. split; [done|]. split; [done|]. split.
  - exists (sortCompact clear deps).
    by rewrite dedupPass_lookup, HP, sortCompact_length.
  - exists (sortCompact clear (deps ++ deps)).
    rewrite dedupPass_lookup, lookup_fmap, HP, sortCompact_length, length_app.
    split; [done|lia].
Qed.

(** C8, the code falls short of the claim, by the defect of C1: fed
    once, the stream of one file importing fmt gives the package the
    single entry fmt; fed twice it gives fmt, fmt with the Compact of
    Go 1.21 (the edge is rendered twice) and fmt, "" with the one of
    Go 1.22 (a new node "" and a new edge, to a node that is no key).
    [builder_twice_lengths] has the general fact behind it. *)
Theorem builder_twice_differs :
  (∀ clear, builder clear "m" [goFile "x.go" ["fmt"]]
            = Some (<["m" := ["fmt"]]> (<["fmt" := []]> ∅)))
  ∧ builder false "m" ([goFile "x.go" ["fmt"]] ++ [goFile "x.go" ["fmt"]])
    = Some (<["m" := ["fmt"; "fmt"]]> (<["fmt" := []]> ∅))
  ∧ builder true "m" ([goFile "x.go" ["fmt"]] ++ [goFile "x.go" ["fmt"]])
    = Some (<["m" := ["fmt"; ""]]> (<["fmt" := []]> ∅))
  ∧ Edges (render plainQuote [("m", ["fmt"]); ("fmt", [])])
    = [(plainQuote "fmt", plainQuote "m")]
  ∧ Edges (render plainQuote [("m", ["fmt"; "fmt"]); ("fmt", [])])
    = [(plainQuote "fmt", plainQuote "m"); (plainQuote "fmt", plainQuote "m")]
  ∧ Edges (render plainQuote [("m", ["fmt"; ""]); ("fmt", [])])
    = [(plainQuote "fmt", plainQuote "m"); (plainQuote "", plainQuote "m")].
Proof.
  split; [intros []; vm_compute; reflexivity|].
  repeat split; vm_compute; reflexivity.
Qed.

(** ** The rendering loop *)

Lemma multiplicity_nil {A} `{EqDecision A} (x : A) : multiplicity x [] = 0.
Proof. done. Qed.





Section Rendering.

Context (Quote : string → string).

Lemma addNodeOnce_Edges n st : Edges (addNodeOnce Quote n st).2 = Edges st.2.
Proof.
  destruct st as [seen graph]. unfold addNodeOnce.
  by destruct (decide (n ∈ seen)).
Qed.

Lemma renderDep_Edges m st d :
  Edges (renderDep Quote m st d).2 = Edges st.2 ++ [(Quote d, Quote m)].
Proof.
  unfold renderDep. pose proof (addNodeOnce_Edges d st) as H.
  destruct (addNodeOnce Quote d st) as [seen graph]. cbn in *. by rewrite H.
Qed.

Lemma renderDeps_Edges m deps st :
  Edges (foldl (renderDep Quote m) st deps).2
  = Edges st.2 ++ entryEdges Quote (m, deps).
Proof.
  revert st. induction deps as [|d deps IH]; intros st.
  - cbn. by rewrite app_nil_r.
  - cbn [foldl]. rewrite IH, renderDep_Edges, <- app_assoc. done.
Qed.

Lemma renderEntry_Edges st entry :
  Edges (renderEntry Quote st entry).2 = Edges st.2 ++ entryEdges Quote entry.
Proof.
  destruct entry as [m deps]. unfold renderEntry.
  by rewrite renderDeps_Edges, addNodeOnce_Edges.
Qed.

Lemma renderEntries_Edges entries st :
  Edges (foldl (renderEntry Quote) st entries).2
  = Edges st.2 ++ (entries ≫= entryEdges Quote).
Proof.
  revert st. induction entries as [|e entries IH]; intros st.
  - cbn. by rewrite app_nil_r.
  - cbn [foldl]. rewrite IH, renderEntry_Edges, <- app_assoc. done.
Qed.

(** The edges handed to graphviz, in order. *)
Lemma render_Edges entries :
  Edges (render Quote entries) = entries ≫= entryEdges Quote.
Proof. unfold render. by rewrite renderEntries_Edges. Qed.

Lemma elem_of_render_Edges entries src dst :
  (src, dst) ∈ Edges (render Quote entries)
  ↔ ∃ P deps d, (P, deps) ∈ entries ∧ d ∈ deps ∧ src = Quote d ∧ dst = Quote P.
Proof.
  rewrite render_Edges, list_elem_of_bind. split.
  - intros ([P deps] & He & Hin). unfold entryEdges in He.
    apply list_elem_of_fmap in He as (d & Heq & Hd). cbn in Heq.
    injection Heq as -> ->. by exists P, deps, d.
  - intros (P & deps & d & Hin & Hd & -> & ->). exists (P, deps). split; [|done].
    unfold entryEdges. apply list_elem_of_fmap. by exists d.
Qed.

Context {Quote_inj : Inj (=) (=) Quote}.




End Rendering.

Lemma app_dquote_inj (s t : string) :
  s +:+ String dquote "" = t +:+ String dquote "" → s = t.
Proof.
  revert t. induction s as [|c s IH]; intros [|c' t] H.
  - done.
  - injection H as _ H. by destruct t.
  - injection H as _ H. by destruct s.
  - injection H as -> H. f_equal. by apply IH.
Qed.

Lemma plainQuote_inj : Inj (=) (=) plainQuote.
Proof. intros s t [= H]. by apply app_dquote_inj. Qed.



(** ** getPackageName *)

Lemma plainElem_inv e :
  plainElem e = true →
  bytesOf e ≠ [] ∧ Forall (λ c, IsPathSeparator c = false) (bytesOf e)
  ∧ bytesOf e ≠ ["."%char] ∧ bytesOf e ≠ ["."%char; "."%char].
Proof.
  unfold plainElem. rewrite !andb_true_iff, !negb_true_iff, !String.eqb_neq.
  intros [[[Hne Hall] Hd] Hdd]. repeat split.
  - intros H. apply Hne. apply bytesOf_inj. by rewrite H.
  - apply Forall_forall. intros c Hc.
    rewrite forallb_forall in Hall. apply negb_true_iff, Hall.
    by apply list_elem_of_In.
  - intros H. apply Hd. apply bytesOf_inj. by rewrite H.
  - intros H. apply Hdd. apply bytesOf_inj. by rewrite H.
Qed.

Lemma fileName_inv e :
  fileName e = true → Forall (λ c, IsPathSeparator c = false) (bytesOf e).
Proof.
  unfold fileName. intros Hall. apply Forall_forall. intros c Hc.
  rewrite forallb_forall in Hall. apply negb_true_iff, Hall.
  by apply list_elem_of_In.
Qed.

Lemma copyElem_app e rest out :
  Forall (λ c, IsPathSeparator c = false) e →
  Filepath.atElemEnd rest = true →
  Filepath.copyElem (e ++ rest) out = (rest, rev e ++ out).
Proof.
  intros He Hrest. revert out. induction He as [|c e Hc He IH]; intros out.
  - destruct rest as [|c rest]; [done|]. cbn in *. by rewrite Hrest.
  - cbn. rewrite Hc, IH, <- app_assoc. done.
Qed.

Lemma cleanLoop_nil fuel rooted out dotdot :
  Filepath.cleanLoop fuel rooted [] out dotdot = out.
Proof. by destruct fuel. Qed.

Lemma cleanLoop_harmlessTail fuel rooted tail out dotdot :
  harmlessTail tail → length tail ≤ fuel →
  Filepath.cleanLoop fuel rooted tail out dotdot = out.
Proof.
  intros [-> | [-> | ->]] Hfuel; [apply cleanLoop_nil|..].
  - destruct fuel as [|fuel]; [done|]. cbn. apply cleanLoop_nil.
  - destruct fuel as [|[|fuel]]; cbn in *; [lia..|]. apply cleanLoop_nil.
Qed.

Lemma harmlessTail_atElemEnd tail : harmlessTail tail → Filepath.atElemEnd tail = true.
Proof. by intros [-> | [-> | ->]]. Qed.

(** One turn of the loop on a plain element: it is copied, after a
    separator unless the buffer is empty. *)
Lemma cleanLoop_plainElem fuel e rest out :
  e ≠ [] → Forall (λ c, IsPathSeparator c = false) e →
  e ≠ ["."%char] → e ≠ ["."%char; "."%char] →
  Filepath.atElemEnd rest = true →
  Filepath.cleanLoop (S fuel) false (e ++ rest) out 0
  = Filepath.cleanLoop fuel false rest
      (rev e ++ if length out =? 0 then out else Separator :: out) 0.
Proof.
  intros Hne Hall Hd Hdd Hrest.
  assert (Filepath.isDot (e ++ rest) = false) as HisDot.
  { destruct e as [|c [|c1 e]]; [done|..]; cbn.
    - destruct (Ascii.eqb_spec c "."%char) as [->|]; [done|done].
    - apply Forall_cons in Hall as [_ [Hc1 _]%Forall_cons].
      rewrite Hc1. apply andb_false_r. }
  assert (Filepath.isDotDot (e ++ rest) = false) as HisDotDot.
  { destruct e as [|c [|c1 [|c2 e]]]; [done|..]; cbn.
    - destruct rest as [|c1 rest]; [done|]. cbn in Hrest.
      destruct (Ascii.eqb_spec c "."%char) as [->|]; [|done].
      destruct (Ascii.eqb_spec c1 "."%char) as [->|]; [|done].
      discriminate Hrest.
    - destruct (Ascii.eqb_spec c "."%char) as [->|]; [|done].
      destruct (Ascii.eqb_spec c1 "."%char) as [->|]; [|done]. done.
    - apply Forall_cons in Hall as [_ [_ [Hc2 _]%Forall_cons]%Forall_cons].
      rewrite Hc2. apply andb_false_r. }
  pose proof (copyElem_app e rest
                (if length out =? 0 then out else Separator :: out) Hall Hrest)
    as Hcopy.
  destruct e as [|c e]; [done|].
  apply Forall_cons in Hall as [Hc Hall].
  cbn [Filepath.cleanLoop app]. rewrite Hc.
  change (c :: e ++ rest) with ((c :: e) ++ rest).
  rewrite HisDot, HisDotDot. cbn [andb orb negb].
  destruct (length out =? 0); cbn [negb]; by rewrite Hcopy.
Qed.

Lemma joinSep_cons2 e e2 es :
  Filepath.joinSep (e :: e2 :: es) = e ++ Separator :: Filepath.joinSep (e2 :: es).
Proof. reflexivity. Qed.

Lemma joinSep_app es1 es2 :
  es1 ≠ [] → es2 ≠ [] →
  Filepath.joinSep (es1 ++ es2)
  = Filepath.joinSep es1 ++ Separator :: Filepath.joinSep es2.
Proof.
  intros H1 H2. induction es1 as [|e [|e2 es1] IH]; [done|..].
  - destruct es2; [done|]. reflexivity.
  - change ((e :: e2 :: es1) ++ es2) with (e :: (e2 :: es1) ++ es2).
    change ((e2 :: es1) ++ es2) with (e2 :: es1 ++ es2) at 1.
    rewrite joinSep_cons2. change (e2 :: es1 ++ es2) with ((e2 :: es1) ++ es2).
    rewrite IH by done. rewrite joinSep_cons2, <- app_assoc. done.
Qed.

Lemma joinSep_snoc es e :
  es ≠ [] → Filepath.joinSep (es ++ [e]) = Filepath.joinSep es ++ Separator :: e.
Proof. intros H. by rewrite joinSep_app. Qed.

(** The loop over a run of plain elements, each followed by one
    separator or by the end: the elements are copied, joined by
    single separators. *)
Lemma cleanLoop_plainElems (es : list string) fuel tail out :
  es ≠ [] → Forall (λ e, plainElem e = true) es → harmlessTail tail →
  length (Filepath.joinSep (bytesOf <$> es) ++ tail) ≤ fuel →
  Filepath.cleanLoop fuel false (Filepath.joinSep (bytesOf <$> es) ++ tail) out 0
  = rev (Filepath.joinSep (bytesOf <$> es))
    ++ if length out =? 0 then out else Separator :: out.
Proof.
  intros Hne Hall Htail. revert fuel out.
  induction es as [|e [|e2 es] IH]; intros fuel out Hfuel; [done|..].
  - apply Forall_cons in Hall as [(He1 & He2 & He3 & He4)%plainElem_inv _].
    assert (1 ≤ length (bytesOf e)) as Hlen
      by (destruct (bytesOf e); [done|cbn; lia]).
    cbn [fmap list_fmap Filepath.joinSep] in *.
    rewrite length_app in Hfuel.
    destruct fuel as [|fuel]; [lia|].
    rewrite cleanLoop_plainElem by (done || by apply harmlessTail_atElemEnd).
    apply cleanLoop_harmlessTail; [done|lia].
  - apply Forall_cons in Hall as [(He1 & He2 & He3 & He4)%plainElem_inv Hall].
    assert (1 ≤ length (bytesOf e)) as Hlen
      by (destruct (bytesOf e); [done|cbn; lia]).
    rewrite !fmap_cons in *. rewrite joinSep_cons2 in *.
    rewrite <- !fmap_cons in *.
    set (J := Filepath.joinSep (bytesOf <$> e2 :: es)) in *.
    rewrite <- app_assoc, <- app_comm_cons in *.
    rewrite length_app in Hfuel. cbn [length] in Hfuel.
    destruct fuel as [|[|fuel]]; [lia..|].
    rewrite cleanLoop_plainElem by done.
    cbn [Filepath.cleanLoop]. change (IsPathSeparator Separator) with true.
    cbn match. rewrite IH; [|done|done|lia].
    rewrite length_app. destruct (rev (bytesOf e)) eqn:Hrev.
    { apply (f_equal (@rev _)) in Hrev. rewrite rev_involutive in Hrev. done. }
    cbn [app length Nat.eqb Nat.add].
    rewrite rev_app_distr. cbn [rev]. rewrite <- !app_assoc, Hrev. done.
Qed.

(** [Clean] returns such a path without what follows its last element. *)
Lemma clean_plainElems (es : list string) tail :
  es ≠ [] → Forall (λ e, plainElem e = true) es → harmlessTail tail →
  Filepath.clean (Filepath.joinSep (bytesOf <$> es) ++ tail)
  = Filepath.joinSep (bytesOf <$> es).
Proof.
  intros Hne Hall Htail.
  assert (∃ c p, Filepath.joinSep (bytesOf <$> es) = c :: p
                 ∧ IsPathSeparator c = false) as (c & p & HJ & Hc).
  { destruct es as [|e es]; [done|].
    apply Forall_cons in Hall as [(He1 & He2 & _)%plainElem_inv _].
    destruct (bytesOf e) as [|c b] eqn:Hb; [done|].
    apply Forall_cons in He2 as [Hc _]. exists c.
    destruct es as [|e2 es].
    - exists b. cbn. by rewrite Hb.
    - eexists. rewrite !fmap_cons, joinSep_cons2, Hb. by split. }
  unfold Filepath.clean.
  pose proof (cleanLoop_plainElems es
                (length (Filepath.joinSep (bytesOf <$> es) ++ tail)) tail []
                Hne Hall Htail (le_n _)) as Hloop.
  rewrite HJ in *. cbn [app] in *. rewrite Hc.
  change (length (c :: p ++ tail)) with (length (c :: (p ++ tail))) in *.
  rewrite Hloop. cbn [length Nat.eqb]. rewrite app_nil_r.
  destruct (rev (c :: p)) eqn:Hrev.
  { apply (f_equal (@rev _)) in Hrev. rewrite rev_involutive in Hrev. done. }
  rewrite <- Hrev. apply rev_involutive.
Qed.

Lemma dropLastElem_app f rest :
  Forall (λ c, IsPathSeparator c = false) f →
  Filepath.dropLastElem (f ++ rest) = Filepath.dropLastElem rest.
Proof.
  induction 1 as [|c f Hc _ IH]; [done|]. cbn. by rewrite Hc.
Qed.

(** [Dir] of a path of plain directories and a file name. *)
Lemma dir_plainElems (ds : list string) (file : string) :
  Forall (λ e, plainElem e = true) ds → fileName file = true →
  Filepath.dir (Filepath.joinSep (bytesOf <$> ds ++ [file]))
  = match ds with
    | [] => ["."%char]
    | _ => Filepath.joinSep (bytesOf <$> ds)
    end.
Proof.
  intros Hds Hfile%fileName_inv. unfold Filepath.dir.
  destruct ds as [|d ds].
  - cbn [app fmap list_fmap Filepath.joinSep].
    rewrite <- (app_nil_r (rev (bytesOf file))).
    rewrite dropLastElem_app by by apply Forall_rev.
    reflexivity.
  - rewrite fmap_app.
    change (bytesOf <$> [file]) with [bytesOf file].
    rewrite joinSep_snoc by done.
    rewrite rev_app_distr. cbn [rev]. rewrite <- app_assoc.
    rewrite dropLastElem_app by by apply Forall_rev.
    cbn [app Filepath.dropLastElem]. change (IsPathSeparator Separator) with true.
    cbn match.
    change (Separator :: rev (Filepath.joinSep (bytesOf <$> d :: ds)))
      with (rev [Separator] ++ rev (Filepath.joinSep (bytesOf <$> d :: ds))).
    rewrite <- rev_app_distr, rev_involutive.
    apply clean_plainElems; [done|done|]. right. by left.
Qed.

Lemma getPackageName_plainElems (ms ds : list string) (file : string) :
  ms ≠ [] →
  Forall (λ e, plainElem e = true) ms →
  Forall (λ e, plainElem e = true) ds →
  fileName file = true →
  getPackageName (pathOf ms) (pathOf (ds ++ [file])) = pathOf (ms ++ ds).
Proof.
  intros Hne Hms Hds Hfile.
  unfold getPackageName, Filepath.Join, Filepath.Dir, pathOf. f_equal.
  cbn [fmap list_fmap]. rewrite !bytesOf_ofBytes, dir_plainElems by done.
  assert (Filepath.joinSep (bytesOf <$> ms) ≠ []) as HJ.
  { destruct ms as [|m ms]; [done|].
    apply Forall_cons in Hms as [(He1 & _)%plainElem_inv _].
    destruct ms; cbn; [done|]. by destruct (bytesOf m). }
  cbn [Filepath.join].
  destruct (Filepath.joinSep (bytesOf <$> ms)) as [|c J] eqn:HJeq; [done|].
  rewrite <- HJeq. cbn [Filepath.joinSep].
  destruct ds as [|d ds].
  - rewrite app_nil_r.
    apply (clean_plainElems ms [Separator; "."%char]); [done|done|].
    right. by right.
  - rewrite <- joinSep_app by (done || by destruct ms).
    rewrite <- fmap_app, <- (app_nil_r (Filepath.joinSep _)) at 1.
    apply (clean_plainElems (ms ++ d :: ds) []).
    + by destruct ms.
    + by apply Forall_app.
    + by left.
Qed.

(** C3: [getPackageName] is the path-join of the module root with the
    directory of the file path.  For a module root m1/.../mk and a
    file path d1/.../dn/file made of plain elements the result is
    m1/.../mk/d1/.../dn, so a file at the tree root maps to the module
    root itself; the two examples of the specification hold. *)
Theorem getPackageName_joins_module_and_directory
        (M p : string) (ms ds : list string) (file : string) :
  getPackageName M p = Filepath.Join [M; Filepath.Dir p]
  ∧ (ms ≠ [] →
     Forall (λ e, plainElem e = true) ms →
     Forall (λ e, plainElem e = true) ds →
     fileName file = true →
     getPackageName (pathOf ms) (pathOf (ds ++ [file])) = pathOf (ms ++ ds)
     ∧ getPackageName (pathOf ms) (pathOf [file]) = pathOf ms)
  ∧ getPackageName "example.com/mod" "pkg/file.go" = "example.com/mod/pkg"
  ∧ getPackageName "example.com/mod" "file.go" = "example.com/mod".
Proof.
  split; [reflexivity|]. split; [|split; reflexivity].
  intros Hne Hms Hds Hfile. split.
  - by apply getPackageName_plainElems.
  - rewrite <- (app_nil_r ms) at 2.
    by apply (getPackageName_plainElems ms [] file).
Qed.

Lemma getPackageName_joins_module_and_directory_witness :
  getPackageName (pathOf ["example.com"; "mod"]) (pathOf (["a"; "b"] ++ ["file.go"]))
    = pathOf (["example.com"; "mod"] ++ ["a"; "b"])
  ∧ getPackageName (pathOf ["example.com"; "mod"]) (pathOf ["file.go"])
    = pathOf ["example.com"; "mod"].
Proof.
  apply (proj1 (proj2 (getPackageName_joins_module_and_directory
                         "example.com/mod" "a/b/file.go"
                         ["example.com"; "mod"] ["a"; "b"] "file.go"))).
  - discriminate.
  - repeat constructor.
  - repeat constructor.
  - reflexivity.
Defined.

(** ** getPackageName is a function of its arguments *)





(** * Further properties of main.go *)

(** ** convertHTTPtoSSH: the shape of the result *)

Lemma firstSlashToColon_length s :
  String.length (firstSlashToColon s) = String.length s.
Proof.
  induction s as [|c s IH]; [done|]. cbn.
  destruct (Ascii.eqb c "/"%char); cbn; [done|]. by rewrite IH.
Qed.

Lemma firstSlashToColon_no_slash s : fileName s = true → firstSlashToColon s = s.
Proof.
  unfold fileName. induction s as [|c s IH]; [done|].
  rewrite bytesOf_cons. cbn [forallb firstSlashToColon].
  unfold IsPathSeparator, Separator.
  intros [Hc Hs]%andb_true_iff. apply negb_true_iff in Hc. rewrite Hc.
  by rewrite IH.
Qed.

(** X1: when [convertHTTPtoSSH] returns no error, the argument began
    with "https://", the URL returned begins with "git@" and is four
    bytes shorter than the argument: nothing but the prefix and one
    byte is touched. *)
Theorem convertHTTPtoSSH_success_shape (s url : string) :
  convertHTTPtoSSH s = (url, None) →
  beginsWith s "https://" ∧ beginsWith url "git@"
  ∧ String.length url + 4 = String.length s.
Proof.
  intros Hc.
  destruct (Strings.HasPrefix s "https://") eqn:Hp.
  - apply HasPrefix_beginsWith in Hp as [rest ->].
    rewrite convert_https in Hc. injection Hc as <-.
    split; [by exists rest|]. split; [by eexists|].
    change (String.length ("git@" +:+ firstSlashToColon rest))
      with (4 + String.length (firstSlashToColon rest)).
    change (String.length ("https://" +:+ rest)) with (8 + String.length rest).
    rewrite firstSlashToColon_length. lia.
  - unfold convertHTTPtoSSH in Hc. rewrite Hp in Hc. discriminate Hc.
Qed.

Lemma convertHTTPtoSSH_success_shape_witness :
  beginsWith "https://github.com/user/repo" "https://"
  ∧ beginsWith "git@github.com:user/repo" "git@"
  ∧ String.length "git@github.com:user/repo" + 4
    = String.length "https://github.com/user/repo".
Proof.
  apply (convertHTTPtoSSH_success_shape "https://github.com/user/repo"
           "git@github.com:user/repo").
  reflexivity.
Defined.

(** X2: a location without any "/" after the prefix (a bare host) is
    only given the new prefix; no ":" is put in. *)
Theorem convertHTTPtoSSH_bare_host (rest : string) :
  fileName rest = true →
  convertHTTPtoSSH ("https://" +:+ rest) = ("git@" +:+ rest, None).
Proof.
  intros H. by rewrite convert_https, firstSlashToColon_no_slash.
Qed.

Lemma convertHTTPtoSSH_bare_host_witness :
  convertHTTPtoSSH ("https://" +:+ "github.com") = ("git@" +:+ "github.com", None).
Proof. apply convertHTTPtoSSH_bare_host. reflexivity. Defined.

(** ** getPackageName: packages are directories *)

Lemma clean_nonempty path : Filepath.clean path ≠ [].
Proof.
  assert (∀ out : bytes, match out with [] => ["."%char] | _ => rev out end ≠ [])
    as Hout.
  { intros [|a out]; [done|].
    intros H%(f_equal (@rev _)). by rewrite rev_involutive in H. }
  unfold Filepath.clean. destruct path as [|c path]; [done|]. apply Hout.
Qed.

Lemma ofBytes_nonempty b : b ≠ [] → ofBytes b ≠ "".
Proof. by destruct b. Qed.

(** X3: the package node is never the empty string, whatever the
    module name and the path are (also for an empty module name). *)
Theorem getPackageName_nonempty (M p : string) : getPackageName M p ≠ "".
Proof.
  unfold getPackageName, Filepath.Join, Filepath.Dir.
  apply ofBytes_nonempty. cbn [fmap list_fmap]. rewrite bytesOf_ofBytes.
  pose proof (clean_nonempty
                (rev (Filepath.dropLastElem (rev (bytesOf p))))) as Hdir.
  fold (Filepath.dir (bytesOf p)) in *.
  cbn [Filepath.join].
  destruct (bytesOf M) as [|c m].
  - destruct (Filepath.dir (bytesOf p)) as [|c d] eqn:Hd; [done|].
    apply clean_nonempty.
  - apply clean_nonempty.
Qed.

Lemma dir_same_directory d f :
  Forall (λ c, IsPathSeparator c = false) f →
  Filepath.dir (d ++ Separator :: f) = Filepath.clean (d ++ [Separator]).
Proof.
  intros Hf. unfold Filepath.dir.
  rewrite rev_app_distr. cbn [rev]. rewrite <- app_assoc.
  rewrite dropLastElem_app by by apply Forall_rev.
  cbn [app Filepath.dropLastElem]. change (IsPathSeparator Separator) with true.
  cbn match.
  change (Separator :: rev d) with (rev [Separator] ++ rev d).
  by rewrite <- rev_app_distr, rev_involutive.
Qed.

Lemma dir_root_file f :
  Forall (λ c, IsPathSeparator c = false) f → Filepath.dir f = ["."%char].
Proof.
  intros Hf. unfold Filepath.dir.
  rewrite <- (app_nil_r (rev f)), dropLastElem_app by by apply Forall_rev.
  reflexivity.
Qed.

(** X4: the package depends on the directory only.  Two files of one
    directory, whatever the directory path looks like, get the same
    package node, and so do two files at the tree root. *)
Theorem getPackageName_same_directory (M d f1 f2 : string) :
  fileName f1 = true → fileName f2 = true →
  getPackageName M (d +:+ "/" +:+ f1) = getPackageName M (d +:+ "/" +:+ f2)
  ∧ getPackageName M f1 = getPackageName M f2.
Proof.
  intros H1%fileName_inv H2%fileName_inv.
  unfold getPackageName, Filepath.Dir. split.
  - rewrite !bytesOf_app. change (bytesOf "/") with [Separator].
    cbn [app]. by rewrite !dir_same_directory.
  - by rewrite !dir_root_file.
Qed.

Lemma getPackageName_same_directory_witness :
  getPackageName "m" ("a//../b/." +:+ "/" +:+ "x.go")
  = getPackageName "m" ("a//../b/." +:+ "/" +:+ "y_test.go")
  ∧ getPackageName "m" "x.go" = getPackageName "m" "y_test.go".
Proof. apply getPackageName_same_directory; reflexivity. Defined.

(** X5: with the empty module name (no go.mod in the tree) the
    package of d1/.../dn/file is d1/.../dn, and "." for a file at the
    tree root. *)
Theorem getPackageName_empty_module (ds : list string) (file : string) :
  Forall (λ e, plainElem e = true) ds → fileName file = true →
  getPackageName "" (pathOf (ds ++ [file]))
  = match ds with
    | [] => "."
    | _ => pathOf ds
    end.
Proof.
  intros Hds Hfile.
  unfold getPackageName, Filepath.Join, Filepath.Dir, pathOf.
  cbn [fmap list_fmap]. rewrite !bytesOf_ofBytes, dir_plainElems by done.
  change (bytesOf "") with (@nil ascii). cbn [Filepath.join].
  destruct ds as [|d ds]; [reflexivity|].
  assert (Filepath.joinSep (bytesOf <$> d :: ds) ≠ []) as HJ.
  { apply Forall_cons in Hds as [(He1 & _)%plainElem_inv _].
    rewrite fmap_cons. destruct ds; cbn; [done|]. by destruct (bytesOf d). }
  destruct (Filepath.joinSep (bytesOf <$> d :: ds)) as [|c J] eqn:HJeq; [done|].
  rewrite <- HJeq. cbn [Filepath.joinSep]. f_equal.
  rewrite <- (app_nil_r (Filepath.joinSep _)) at 1.
  apply clean_plainElems; [done|done|by left].
Qed.

Lemma getPackageName_empty_module_witness :
  getPackageName "" (pathOf (["cmd"; "tool"] ++ ["main.go"])) = pathOf ["cmd"; "tool"].
Proof.
  apply (getPackageName_empty_module ["cmd"; "tool"] "main.go").
  - repeat constructor.
  - reflexivity.
Defined.

(** ** The walk: where keys and entries come from *)

Lemma substring_0_app s t : String.substring 0 (String.length s) (s +:+ t) = s.
Proof.
  induction s as [|c s IH]; [by destruct t|].
  change (String c s +:+ t) with (String c (s +:+ t)). cbn. by rewrite IH.
Qed.

Lemma length_snoc s b : String.length (s +:+ String b "") = S (String.length s).
Proof.
  induction s as [|c s IH]; [done|].
  change (String c s +:+ String b "") with (String c (s +:+ String b "")).
  cbn. by rewrite IH.
Qed.

(** X6: the import path is what stands between the two delimiters of
    the literal, whatever they are (double quotes or back quotes) and
    whatever it contains, and taking it out does not panic. *)
Theorem unquote_literal (a b : ascii) (s : string) :
  unquote (String a (s +:+ String b "")) = ([], inr s).
Proof.
  unfold unquote, importPath. cbn [String.length].
  rewrite length_snoc. cbn [Nat.ltb Nat.leb Nat.sub String.substring].
  rewrite Nat.sub_0_r, substring_0_app. reflexivity.
Qed.

Lemma ensureKey_records_inv k g P x :
  records (ensureKey k g) P x → records g P x.
Proof.
  unfold ensureKey. destruct (g !! k) eqn:Hk; [done|].
  intros (deps & HP & Hx). destruct (decide (k = P)) as [->|Hne].
  - rewrite lookup_insert_eq in HP. injection HP as <-. by apply elem_of_nil in Hx.
  - rewrite lookup_insert_ne in HP by done. by exists deps.
Qed.

Lemma ensureKey_is_Some_inv k g k' :
  is_Some (ensureKey k g !! k') → is_Some (g !! k') ∨ k' = k.
Proof.
  unfold ensureKey. destruct (g !! k) eqn:Hk; [by left|].
  destruct (decide (k = k')) as [->|Hne]; [by right|].
  rewrite lookup_insert_ne by done. by left.
Qed.

Lemma recordImport_records_inv name d g P x :
  records (recordImport name d g) P x → records g P x ∨ (P = name ∧ x = d).
Proof.
  unfold recordImport. intros (deps & HP & Hx).
  destruct (decide (name = P)) as [->|Hne].
  - rewrite lookup_insert_eq in HP. injection HP as <-.
    apply elem_of_app in Hx as [Hx|Hx%list_elem_of_singleton]; [|by right].
    left. apply (ensureKey_records_inv d).
    destruct (ensureKey d g !! P) as [old|] eqn:Hold; cbn in Hx.
    + by exists old.
    + by apply elem_of_nil in Hx.
  - rewrite lookup_insert_ne in HP by done. left.
    apply (ensureKey_records_inv d). by exists deps.
Qed.

Lemma recordImport_is_Some_inv name d g k :
  is_Some (recordImport name d g !! k) → is_Some (g !! k) ∨ k = name ∨ k = d.
Proof.
  unfold recordImport. destruct (decide (name = k)) as [->|Hne]; [tauto|].
  rewrite lookup_insert_ne by done.
  intros [H| ->]%ensureKey_is_Some_inv; tauto.
Qed.

Lemma addImports_inv name specs g t g' :
  addImports name specs g = (t, inr g') →
  (∀ P x, records g' P x →
          records g P x ∨ (P = name ∧ ∃ v, v ∈ specs ∧ importPath v = x))
  ∧ (∀ k, is_Some (g' !! k) →
          is_Some (g !! k) ∨ k = name ∨ ∃ v, v ∈ specs ∧ importPath v = k).
Proof.
  revert g t. induction specs as [|v specs IH]; intros g t Hrun.
  - cbv [addImports mret Run_ret] in Hrun. injection Hrun as <- <-.
    split; intros; by left.
  - cbn [addImports] in Hrun. unfold unquote in Hrun.
    destruct (String.length v <? 2); [discriminate Hrun|].
    rewrite Run_mret_bind in Hrun.
    destruct (IH _ _ Hrun) as [Hr Hk]. split.
    + intros P x [H|(-> & v' & Hv' & <-)]%Hr.
      * apply recordImport_records_inv in H as [H|[-> ->]]; [by left|].
        right. split; [done|]. exists v. split; [|done]. apply elem_of_cons. by left.
      * right. split; [done|]. exists v'. split; [|done]. apply elem_of_cons. by right.
    + intros k [H|[->|(v' & Hv' & <-)]]%Hk.
      * apply recordImport_is_Some_inv in H as [H|[->| ->]]; [tauto..|].
        right. right. exists v. split; [|done]. apply elem_of_cons. by left.
      * tauto.
      * right. right. exists v'. split; [|done]. apply elem_of_cons. by right.
Qed.

Lemma addFile_inv M g f t g' :
  addFile M g f = (t, inr (inr g')) →
  (∀ P x, records g' P x → records g P x ∨ importedBy [f] M P x)
  ∧ (∀ k, is_Some (g' !! k) →
          is_Some (g !! k) ∨ packageOf [f] M k ∨ ∃ P, importedBy [f] M P k).
Proof.
  unfold addFile. destruct (walkErr f); [discriminate|].
  destruct (String.eqb (Filepath.Ext (fpath f)) ".go") eqn:Hext.
  2:{ intros [= <- <-]. split; intros; by left. }
  apply String.eqb_eq in Hext.
  destruct (openErr f); [discriminate|].
  destruct (imports f) as [specs|] eqn:Hi; [|discriminate].
  set (name := getPackageName M (fpath f)).
  destruct (addImports name specs (ensureKey name g)) as [t1 [e|g1]] eqn:Hadd;
    [discriminate|].
  cbn. intros [= <- <-].
  destruct (addImports_inv _ _ _ _ _ Hadd) as [Hr Hk].
  assert (f ∈ [f]) as Hin by (apply elem_of_cons; by left).
  split.
  - intros P x [H|(-> & v & Hv & <-)]%Hr.
    + left. by apply (ensureKey_records_inv name).
    + right. by exists f, specs, v.
  - intros k [H|[->|(v & Hv & <-)]]%Hk.
    + apply ensureKey_is_Some_inv in H as [H| ->]; [by left|].
      right. left. by exists f.
    + right. left. by exists f.
    + right. right. exists name. by exists f, specs, v.
Qed.

Lemma importedBy_mono tree tree' M P d :
  (∀ f, f ∈ tree → f ∈ tree') → importedBy tree M P d → importedBy tree' M P d.
Proof.
  intros Hsub (f & specs & v & Hf & H). exists f, specs, v. split; [by apply Hsub|done].
Qed.

Lemma packageOf_mono tree tree' M P :
  (∀ f, f ∈ tree → f ∈ tree') → packageOf tree M P → packageOf tree' M P.
Proof. intros Hsub (f & Hf & H). exists f. split; [by apply Hsub|done]. Qed.

Lemma Walk_addFile_inv M tree g t g' :
  Walk (addFile M) tree g = (t, inr (inr g')) →
  (∀ P x, records g' P x → records g P x ∨ importedBy tree M P x)
  ∧ (∀ k, is_Some (g' !! k) →
          is_Some (g !! k) ∨ packageOf tree M k ∨ ∃ P, importedBy tree M P k).
Proof.
  revert g t. induction tree as [|f tree IH]; intros g t Hrun.
  - cbv [Walk mret Run_ret] in Hrun. injection Hrun as <- <-.
    split; intros; by left.
  - rewrite Walk_cons in Hrun.
    destruct (addFile M g f) as [t0 [e|[err|g0]]] eqn:H0; [discriminate Hrun..|].
    rewrite (bind_inr _ _ _ _ eq_refl) in Hrun.
    destruct (Walk (addFile M) tree g0) as [t1 r1] eqn:Hrest.
    cbn in Hrun. injection Hrun as <- ->.
    destruct (addFile_inv _ _ _ _ _ H0) as [Hr0 Hk0].
    destruct (IH _ _ Hrest) as [Hr Hk].
    assert (∀ f', f' ∈ [f] → f' ∈ f :: tree) as Hhd.
    { intros f' ->%list_elem_of_singleton. apply elem_of_cons. by left. }
    assert (∀ f', f' ∈ tree → f' ∈ f :: tree) as Htl.
    { intros f' Hf'. apply elem_of_cons. by right. }
    split.
    + intros P x [H|H]%Hr.
      * apply Hr0 in H as [H|H]; [by left|]. right. eauto using importedBy_mono.
      * right. eauto using importedBy_mono.
    + intros k [H|[H|[P H]]]%Hk.
      * apply Hk0 in H as [H|[H|[P H]]]; [by left|..].
        -- right. left. eauto using packageOf_mono.
        -- right. right. exists P. eauto using importedBy_mono.
      * right. left. eauto using packageOf_mono.
      * right. right. exists P. eauto using importedBy_mono.
Qed.

(** X7: after the walk the entries of the map are exactly the imports
    declared: [d] stands in the slice of [P] if and only if some .go
    file of package [P] in the tree imports [d]. *)
Theorem walk_records_exactly_the_imports
        (M : string) (tree : list File) (t : list Event) (g : DepGraph)
        (P d : string) :
  graphStage M tree = (t, inr g) →
  records g P d ↔ importedBy tree M P d.
Proof.
  intros Hrun%graphStage_inr. split.
  - intros H. destruct (Walk_addFile_inv _ _ _ _ _ Hrun) as [Hr _].
    destruct (Hr _ _ H) as [(deps & He & _)|H']; [|done].
    by rewrite lookup_empty in He.
  - intros (f & specs & v & Hf & Hext & <- & Hi & Hv & <-).
    destruct (Walk_addFile_inr _ _ _ _ _ Hrun closed_empty) as (_ & _ & Hall).
    destruct (Hall f Hf Hext) as (_ & specs' & Hi' & Hrec).
    rewrite Hi in Hi'. injection Hi' as <-. by apply Hrec.
Qed.

Lemma walk_records_exactly_the_imports_witness :
  records (<["fmt" := []]> (<["root" := ["fmt"]]>
             (<["root/sub" := ["root"; "fmt"]]> ∅))) "root/sub" "root"
  ↔ importedBy scenario "root" "root/sub" "root".
Proof.
  apply (walk_records_exactly_the_imports "root" scenario []).
  vm_compute. reflexivity.
Defined.

(** X8: after the walk the keys of the map are exactly the packages of
    the .go files walked and the imports they declare; nothing else
    becomes a node. *)
Theorem walk_keys_exactly_packages_and_imports
        (M : string) (tree : list File) (t : list Event) (g : DepGraph)
        (k : string) :
  graphStage M tree = (t, inr g) →
  is_Some (g !! k) ↔ packageOf tree M k ∨ ∃ P, importedBy tree M P k.
Proof.
  intros Hrun%graphStage_inr.
  destruct (Walk_addFile_inr _ _ _ _ _ Hrun closed_empty) as (Hc & _ & Hall).
  split.
  - intros H. destruct (Walk_addFile_inv _ _ _ _ _ Hrun) as [_ Hk].
    destruct (Hk _ H) as [[x Hx]|H']; [|done]. by rewrite lookup_empty in Hx.
  - intros [(f & Hf & Hext & <-)|(P & f & specs & v & Hf & Hext & <- & Hi & Hv & <-)].
    + by destruct (Hall f Hf Hext) as (Hk & _).
    + destruct (Hall f Hf Hext) as (_ & specs' & Hi' & Hrec).
      rewrite Hi in Hi'. injection Hi' as <-.
      destruct (Hrec v Hv) as (deps & HP & Hd). by eapply Hc.
Qed.

Lemma walk_keys_exactly_packages_and_imports_witness :
  is_Some ((<["fmt" := []]> (<["root" := ["fmt"]]>
              (<["root/sub" := ["root"; "fmt"]]> ∅)) : DepGraph) !! "fmt")
  ↔ packageOf scenario "root" "fmt" ∨ ∃ P, importedBy scenario "root" P "fmt".
Proof.
  apply (walk_keys_exactly_packages_and_imports "root" scenario []).
  vm_compute. reflexivity.
Defined.

(** ** The walk: what does not matter and what stops it *)

Lemma addFile_other M g f :
  walkErr f = false → Filepath.Ext (fpath f) ≠ ".go" →
  addFile M g f = ([], inr (inr g)).
Proof.
  intros Hw Hext. unfold addFile. rewrite Hw.
  destruct (String.eqb_spec (Filepath.Ext (fpath f)) ".go"); done.
Qed.

(** X9: entries that are no .go files (directories, go.mod, other
    files) leave no trace in the map: provided the walk reports no
    error at them, walking the tree gives what walking its .go entries
    alone gives. *)
Theorem walk_ignores_other_files (M : string) (tree : list File) (g : DepGraph) :
  (∀ f, f ∈ tree → Filepath.Ext (fpath f) ≠ ".go" → walkErr f = false) →
  Walk (addFile M) tree g
  = Walk (addFile M) (filter (λ f, Filepath.Ext (fpath f) = ".go") tree) g.
Proof.
  revert g. induction tree as [|f tree IH]; intros g Hother; [done|].
  assert (∀ f', f' ∈ tree → Filepath.Ext (fpath f') ≠ ".go" → walkErr f' = false)
    as Hother'.
  { intros f' Hf'. apply Hother. apply elem_of_cons. by right. }
  rewrite filter_cons.
  destruct (decide (Filepath.Ext (fpath f) = ".go")) as [Hext|Hext].
  - rewrite !Walk_cons.
    destruct (addFile M g f) as [t0 [e|[err|g0]]]; [done..|].
    rewrite !(bind_inr _ _ _ _ eq_refl). by rewrite IH.
  - assert (walkErr f = false) as Hw.
    { apply Hother; [|done]. apply elem_of_cons. by left. }
    rewrite Walk_cons, (bind_inr _ _ _ _ (addFile_other M g f Hw Hext)).
    rewrite <- IH by done. by destruct (Walk (addFile M) tree g).
Qed.

Lemma walk_ignores_other_files_witness :
  Walk (addFile "root") scenario ∅
  = Walk (addFile "root")
      (filter (λ f, Filepath.Ext (fpath f) = ".go") scenario) ∅.
Proof.
  apply walk_ignores_other_files.
  intros f Hf _. unfold scenario in Hf.
  repeat (apply elem_of_cons in Hf as [->|Hf]; [reflexivity|]).
  by apply elem_of_nil in Hf.
Defined.

(** X10: a walk that has stopped does not look at what follows: the
    entries after the one that stopped it can be anything. *)
Theorem Walk_stops_at_first_failure
        {S : Type} (fn : S → File → Run (error + S))
        (pre post : list File) (s : S) :
  stopped (Walk fn pre s) → Walk fn (pre ++ post) s = Walk fn pre s.
Proof.
  revert s. induction pre as [|f pre IH]; intros s Hstop; [done|].
  rewrite <- app_comm_cons, !Walk_cons in *.
  destruct (fn s f) as [t0 [e|[err|s0]]] eqn:Hfn; [done..|].
  rewrite !(bind_inr _ _ _ _ eq_refl) in *.
  unfold stopped in Hstop. cbn in Hstop. by rewrite IH.
Qed.

Lemma Walk_stops_at_first_failure_witness :
  Walk (addFile "m") ([goFile "a.go" ["fmt"]; dirEntry "b.go"]
                      ++ [goFile "c.go" ["os"]]) ∅
  = Walk (addFile "m") [goFile "a.go" ["fmt"]; dirEntry "b.go"] ∅.
Proof. apply Walk_stops_at_first_failure. vm_compute. exact I. Defined.

(** ** The module name *)

Lemma findModule_goodGoMod m f p : goodGoMod f p → findModule m f = ([], inr (inr p)).
Proof.
  intros (Hw & Hs & Ho & Hr & Hg). unfold findModule.
  by rewrite Hw, Hs, Ho, Hr, Hg.
Qed.

(** X11: when the tree holds several go.mod files, the module name is
    the one of the go.mod walked last: what the walk found before it
    is overwritten. *)
Theorem last_gomod_wins (pre post : list File) (f : File) (p m : string)
        (t : list Event) :
  Walk findModule pre "" = (t, inr (inr m)) →
  goodGoMod f p → noGoMod post →
  moduleStage (pre ++ f :: post) = (t, inr p).
Proof.
  intros Hpre Hf Hpost. unfold moduleStage.
  rewrite (Walk_app _ _ _ _ _ _ Hpre), Walk_cons.
  rewrite (bind_inr _ _ _ _ (findModule_goodGoMod m f p Hf)).
  rewrite (Walk_findModule_noGoMod _ _ Hpost). cbn. by rewrite !app_nil_r.
Qed.

Lemma last_gomod_wins_witness :
  moduleStage ([modFile "go.mod" (ModPath "example.com/app")]
               ++ modFile "vendor/x/go.mod" (ModPath "example.com/x")
               :: [goFile "z.go" []])
  = ([], inr "example.com/x").
Proof.
  apply (last_gomod_wins [modFile "go.mod" (ModPath "example.com/app")]
           [goFile "z.go" []] (modFile "vendor/x/go.mod" (ModPath "example.com/x"))
           "example.com/x" "example.com/app" []).
  - reflexivity.
  - repeat split; reflexivity.
  - intros f Hf. apply elem_of_cons in Hf as [->|Hf]; [by split|].
    by apply elem_of_nil in Hf.
Defined.

Lemma Walk_findModule_no_walkErr tree m t m' :
  Walk findModule tree m = (t, inr (inr m')) → ∀ f, f ∈ tree → walkErr f = false.
Proof.
  revert m t. induction tree as [|f0 tree IH]; intros m t Hrun f Hf.
  { by apply elem_of_nil in Hf. }
  rewrite Walk_cons in Hrun.
  destruct (findModule m f0) as [t0 [e|[err|m0]]] eqn:H0; [discriminate Hrun..|].
  rewrite (bind_inr _ _ _ _ eq_refl) in Hrun.
  destruct (Walk findModule tree m0) as [t1 r1] eqn:Hrest.
  cbn in Hrun. injection Hrun as <- ->.
  apply elem_of_cons in Hf as [->|Hf]; [|by eapply IH].
  unfold findModule in H0. by destruct (walkErr f0).
Qed.

Lemma Walk_addFile_ErrWalk M tree g t p :
  Walk (addFile M) tree g = (t, inr (inl (ErrWalk p))) →
  ∃ f, f ∈ tree ∧ walkErr f = true.
Proof.
  revert g t. induction tree as [|f0 tree IH]; intros g t Hrun; [discriminate Hrun|].
  rewrite Walk_cons in Hrun.
  destruct (walkErr f0) eqn:Hw.
  { exists f0. split; [apply elem_of_cons; by left|done]. }
  destruct (addFile M g f0) as [t0 [e|[err|g0]]] eqn:H0.
  - discriminate Hrun.
  - rewrite (bind_inr _ _ _ _ eq_refl) in Hrun. cbn in Hrun.
    injection Hrun as _ ->. unfold addFile in H0. rewrite Hw in H0.
    destruct (String.eqb (Filepath.Ext (fpath f0)) ".go"); [|discriminate H0].
    destruct (openErr f0); [discriminate H0|].
    destruct (imports f0); [|discriminate H0].
    destruct (addImports _ _ _) as [? [?|?]]; discriminate H0.
  - rewrite (bind_inr _ _ _ _ eq_refl) in Hrun.
    destruct (Walk (addFile M) tree g0) as [t1 r1] eqn:Hrest.
    cbn in Hrun. injection Hrun as _ ->.
    destruct (IH _ _ Hrest) as (f & Hf & Hwf).
    exists f. split; [apply elem_of_cons; by right|done].
Qed.

Lemma addImports_abort name specs g t e :
  addImports name specs g = (t, inl e) → e = PanicSliceBounds.
Proof.
  revert g. induction specs as [|v specs IH]; intros g Hrun; [discriminate Hrun|].
  cbn [addImports] in Hrun. unfold unquote in Hrun.
  destruct (String.length v <? 2); [by injection Hrun as _ <-|].
  rewrite Run_mret_bind in Hrun. by eapply IH.
Qed.

Lemma addFile_abort M g f t e :
  addFile M g f = (t, inl e) → e = FatalSourceParse ∨ e = PanicSliceBounds.
Proof.
  unfold addFile. destruct (walkErr f); [discriminate|].
  destruct (String.eqb (Filepath.Ext (fpath f)) ".go"); [|discriminate].
  destruct (openErr f); [discriminate|].
  destruct (imports f) as [specs|]; [|intros [= _ <-]; by left].
  destruct (addImports _ specs _) as [t1 [e1|g1]] eqn:Hadd; [|discriminate].
  cbn. intros [= _ <-]. right. by eapply addImports_abort.
Qed.

(** Inside the second walk the run can only be aborted by a parse
    failure or by the slice expression of line 133. *)
Lemma Walk_addFile_abort M tree g t e :
  Walk (addFile M) tree g = (t, inl e) →
  e = FatalSourceParse ∨ e = PanicSliceBounds.
Proof.
  revert g t. induction tree as [|f0 tree IH]; intros g t Hrun; [discriminate Hrun|].
  rewrite Walk_cons in Hrun.
  destruct (addFile M g f0) as [t0 [e0|[err|g0]]] eqn:H0.
  - rewrite (bind_inl _ _ _ _ eq_refl) in Hrun. injection Hrun as _ <-.
    by eapply addFile_abort.
  - rewrite (bind_inr _ _ _ _ eq_refl) in Hrun. discriminate Hrun.
  - rewrite (bind_inr _ _ _ _ eq_refl) in Hrun.
    destruct (Walk (addFile M) tree g0) as [t1 r1] eqn:Hrest.
    cbn in Hrun. injection Hrun as _ ->. by eapply IH.
Qed.

(** X12: both walks go over the same tree, so an error that the walk
    itself reports always ends the run in the first walk (line 104):
    once the module stage has succeeded, the second walk cannot end
    in a walk error. *)
Theorem walk_errors_end_the_first_walk
        (tree : list File) (t t' : list Event) (M M' p : string) :
  moduleStage tree = (t, inr M) →
  graphStage M' tree ≠ (t', inl (FatalWalk (ErrWalk p))).
Proof.
  unfold moduleStage, graphStage. intros HM HG.
  destruct (Walk findModule tree "") as [t0 [e|[err|m]]] eqn:H1;
    [discriminate HM..|].
  destruct (Walk (addFile M') tree ∅) as [t1 [e|[err|g]]] eqn:H2;
    [| |discriminate HG].
  { injection HG as _ ->. by destruct (Walk_addFile_abort _ _ _ _ _ H2). }
  cbn in HG. injection HG as _ ->.
  destruct (Walk_addFile_ErrWalk _ _ _ _ _ H2) as (f & Hf & Hw).
  by rewrite (Walk_findModule_no_walkErr _ _ _ _ H1 f Hf) in Hw.
Qed.

Lemma walk_errors_end_the_first_walk_witness :
  graphStage "root" scenario ≠ ([], inl (FatalWalk (ErrWalk "sub"))).
Proof.
  apply (walk_errors_end_the_first_walk scenario [] [] "root" "root" "sub").
  reflexivity.
Defined.

(** ** The sort-and-compact pass on slices without duplicates *)

Lemma insertSorted_Permutation x l : Slices.insertSorted x l ≡ₚ x :: l.
Proof.
  induction l as [|y l IH]; [done|]. cbn.
  destruct (String.leb x y); [done|]. rewrite IH. apply Permutation_swap.
Qed.

Lemma Sort_Permutation s : Slices.Sort s ≡ₚ s.
Proof.
  induction s as [|x s IH]; [done|].
  by rewrite Sort_cons, insertSorted_Permutation, IH.
Qed.

Lemma insertSorted_HdRel y x l :
  HdRel String.le y l → String.le y x → HdRel String.le y (Slices.insertSorted x l).
Proof.
  intros Hl Hyx. destruct l as [|z l]; cbn; [by constructor|].
  destruct (String.leb x z); constructor; [done|]. by inversion Hl.
Qed.

Lemma insertSorted_Sorted x l :
  Sorted String.le l → Sorted String.le (Slices.insertSorted x l).
Proof.
  induction 1 as [|y l Hl IH Hhd]; cbn; [by repeat constructor|].
  destruct (String.leb x y) eqn:Hxy.
  - constructor; [by constructor|]. constructor.
    unfold String.le. by rewrite Hxy.
  - constructor; [done|]. apply insertSorted_HdRel; [done|].
    unfold String.le. destruct (String.leb_total x y) as [H|H]; [congruence|].
    by rewrite H.
Qed.

Lemma Sort_Sorted s : Sorted String.le (Slices.Sort s).
Proof.
  induction s as [|x s IH]; [constructor|].
  rewrite Sort_cons. by apply insertSorted_Sorted.
Qed.

Lemma compactLoop_NoDup s a n :
  NoDup s → 1 ≤ a → a + n ≤ length s →
  foldl Slices.compactStep (s, a) (seq a n) = (s, a + n).
Proof.
  intros Hnd. revert a. induction n as [|n IH]; intros a Ha Hlen.
  { cbn. by rewrite Nat.add_0_r. }
  cbn [seq foldl].
  assert (Slices.compactStep (s, a) a = (s, S a)) as ->.
  { unfold Slices.compactStep.
    destruct (lookup_lt_is_Some_2 s a) as [x Hx]; [lia|].
    destruct (lookup_lt_is_Some_2 s (a - 1)) as [y Hy]; [lia|].
    rewrite Hx, Hy.
    destruct (String.eqb_spec x y) as [->|Hne].
    - pose proof (NoDup_lookup _ _ _ _ Hnd Hx Hy). lia.
    - by rewrite Nat.eqb_refl. }
  rewrite IH by lia. f_equal. lia.
Qed.

(** On a slice without duplicates [Compact] changes nothing and
    returns the whole slice, in either library version. *)
Lemma Compact_NoDup clear s : NoDup s → Slices.Compact clear s = (s, length s).
Proof.
  intros Hnd. unfold Slices.Compact.
  destruct (length s <? 2) eqn:Hlen; [done|].
  apply Nat.ltb_ge in Hlen.
  rewrite compactLoop_NoDup by (done || lia).
  replace (1 + (length s - 1)) with (length s) by lia.
  destruct clear; [|done].
  by rewrite Nat.sub_diag, firstn_all, app_nil_r.
Qed.

(** X13: under a key whose slice holds no import twice, the pass of
    lines 148-151 leaves the slice sorted in ascending order with the
    same entries and no other, whichever version of slices.Compact is
    linked. *)
Theorem dedup_pass_sorts_distinct_imports
        (clear : bool) (g : DepGraph) (P : string) (deps : list string) :
  g !! P = Some deps → NoDup deps →
  ∃ deps', dedupPass clear g !! P = Some deps'
           ∧ deps' ≡ₚ deps ∧ Sorted String.le deps' ∧ NoDup deps'.
Proof.
  intros HP Hnd. exists (Slices.Sort deps).
  assert (NoDup (Slices.Sort deps)) as Hnd' by by rewrite Sort_Permutation.
  rewrite dedupPass_lookup, HP. cbn. unfold sortCompact.
  rewrite Compact_NoDup by done. cbn.
  split; [done|]. split; [apply Sort_Permutation|]. split; [apply Sort_Sorted|done].
Qed.

Lemma dedup_pass_sorts_distinct_imports_witness :
  ∃ deps', dedupPass true (<["root/sub" := ["root"; "fmt"]]> ∅) !! "root/sub"
           = Some deps'
           ∧ deps' ≡ₚ ["root"; "fmt"] ∧ Sorted String.le deps' ∧ NoDup deps'.
Proof.
  apply (dedup_pass_sorts_distinct_imports true
           (<["root/sub" := ["root"; "fmt"]]> ∅) "root/sub" ["root"; "fmt"]).
  - reflexivity.
  - apply NoDup_cons. split.
    + intros [H|H]%elem_of_cons; [discriminate H|by apply elem_of_nil in H].
    + apply NoDup_cons. split; [by intros ?%elem_of_nil|apply NoDup_nil_2].
Defined.

(** ** The nodes handed to graphviz *)

Section RenderingNodes.

Context (Quote : string → string).

Lemma addNodeOnce_listed n st names :
  listed Quote st names →
  ∃ names', listed Quote (addNodeOnce Quote n st) names'
            ∧ ∀ s, s ∈ names' ↔ s ∈ names ∨ s = n.
Proof.
  destruct st as [seen graph]. intros (HN & Hnd & Hseen). cbn in *.
  unfold addNodeOnce. destruct (decide (n ∈ seen)) as [Hin|Hnin].
  - exists names. split; [done|]. intros s. split; [by left|].
    intros [H | ->]; [done|]. by apply Hseen.
  - exists (names ++ [n]). split.
    + split; [|split]; cbn.
      * by rewrite HN, fmap_app.
      * apply NoDup_app. split; [done|]. split; [|apply NoDup_singleton].
        intros s Hs ->%list_elem_of_singleton. by apply Hnin, Hseen.
      * intros s. rewrite elem_of_union, elem_of_singleton, elem_of_app,
          list_elem_of_singleton, Hseen. tauto.
    + intros s. by rewrite elem_of_app, list_elem_of_singleton.
Qed.

Lemma renderDep_listed m st d names :
  listed Quote st names →
  ∃ names', listed Quote (renderDep Quote m st d) names'
            ∧ ∀ s, s ∈ names' ↔ s ∈ names ∨ s = d.
Proof.
  intros H. destruct (addNodeOnce_listed d st names H) as (names' & HL & Hin).
  exists names'. split; [|done]. unfold renderDep.
  destruct (addNodeOnce Quote d st) as [seen graph]. exact HL.
Qed.

Lemma renderDeps_listed m deps st names :
  listed Quote st names →
  ∃ names', listed Quote (foldl (renderDep Quote m) st deps) names'
            ∧ ∀ s, s ∈ names' ↔ s ∈ names ∨ s ∈ deps.
Proof.
  revert st names. induction deps as [|d deps IH]; intros st names H.
  - exists names. split; [done|]. intros s. rewrite elem_of_nil. tauto.
  - cbn [foldl].
    destruct (renderDep_listed m st d names H) as (names1 & H1 & Hin1).
    destruct (IH _ _ H1) as (names2 & H2 & Hin2).
    exists names2. split; [done|]. intros s.
    rewrite Hin2, Hin1, elem_of_cons. tauto.
Qed.

Lemma renderEntry_listed st entry names :
  listed Quote st names →
  ∃ names', listed Quote (renderEntry Quote st entry) names'
            ∧ ∀ s, s ∈ names' ↔ s ∈ names ∨ s = entry.1 ∨ s ∈ entry.2.
Proof.
  destruct entry as [m deps]. intros H. unfold renderEntry.
  destruct (addNodeOnce_listed m st names H) as (names1 & H1 & Hin1).
  destruct (renderDeps_listed m deps _ _ H1) as (names2 & H2 & Hin2).
  exists names2. split; [done|]. intros s. rewrite Hin2, Hin1. cbn. tauto.
Qed.

Lemma renderEntries_listed entries st names :
  listed Quote st names →
  ∃ names', listed Quote (foldl (renderEntry Quote) st entries) names'
            ∧ ∀ s, s ∈ names' ↔ s ∈ names ∨ mentions entries s.
Proof.
  revert st names. induction entries as [|e entries IH]; intros st names H.
  - exists names. split; [done|]. intros s. split; [by left|].
    intros [Hs | (P & deps & Hin & _)]; [done|]. by apply elem_of_nil in Hin.
  - cbn [foldl].
    destruct (renderEntry_listed st e names H) as (names1 & H1 & Hin1).
    destruct (IH _ _ H1) as (names2 & H2 & Hin2).
    exists names2. split; [done|]. intros s. rewrite Hin2, Hin1. split.
    + intros [[Hs | Hs] | (P & deps & Hin & Hs)].
      * by left.
      * right. exists e.1, e.2. split; [|done]. destruct e. apply elem_of_cons. by left.
      * right. exists P, deps. split; [|done]. apply elem_of_cons. by right.
    + intros [Hs | (P & deps & Hin & Hs)]; [by left; left|].
      apply elem_of_cons in Hin as [<- | Hin]; [by left; right|].
      right. by exists P, deps.
Qed.

Lemma render_listed entries :
  ∃ names, Nodes (render Quote entries) = Quote <$> names ∧ NoDup names
           ∧ ∀ s, s ∈ names ↔ mentions entries s.
Proof.
  destruct (renderEntries_listed entries (∅, {| Nodes := []; Edges := [] |}) [])
    as (names & (HN & Hnd & _) & Hin).
  { split; [done|]. split; [apply NoDup_nil_2|]. intros s.
    rewrite elem_of_nil. set_solver. }
  exists names. split; [exact HN|]. split; [done|]. intros s.
  rewrite Hin, elem_of_nil. tauto.
Qed.

End RenderingNodes.

(** X14: the rendering loop of lines 156-178 declares a node for
    exactly the names the map mentions, as a key or inside a slice,
    and, quoting being injective, declares none of them twice, in
    whatever order the map is ranged over. *)
Theorem render_declares_each_name_once
        (Quote : string → string) (entries : list (string * list string)) :
  Inj (=) (=) Quote →
  NoDup (Nodes (render Quote entries))
  ∧ ∀ n, n ∈ Nodes (render Quote entries)
         ↔ ∃ s, n = Quote s ∧ mentions entries s.
Proof.
  intros HQ. destruct (render_listed Quote entries) as (names & HN & Hnd & Hin).
  rewrite HN. split.
  - by apply (NoDup_fmap_2 Quote).
  - intros n. rewrite list_elem_of_fmap. split.
    + intros (s & -> & Hs). exists s. split; [done|]. by apply Hin.
    + intros (s & -> & Hs). exists s. split; [done|]. by apply Hin.
Qed.

Lemma render_declares_each_name_once_witness :
  NoDup (Nodes (render plainQuote [("root/sub", ["root"; "fmt"]); ("root", ["fmt"])]))
  ∧ ∀ n, n ∈ Nodes (render plainQuote
                      [("root/sub", ["root"; "fmt"]); ("root", ["fmt"])])
         ↔ ∃ s, n = plainQuote s
                ∧ mentions [("root/sub", ["root"; "fmt"]); ("root", ["fmt"])] s.
Proof.
  apply (render_declares_each_name_once plainQuote
           [("root/sub", ["root"; "fmt"]); ("root", ["fmt"])]).
  exact plainQuote_inj.
Defined.

(** X15: every edge the rendering loop adds joins two nodes it has
    declared: graph.dot never names an undeclared node in an edge. *)
Theorem render_edges_join_declared_nodes
        (Quote : string → string) (entries : list (string * list string))
        (src dst : string) :
  (src, dst) ∈ Edges (render Quote entries) →
  src ∈ Nodes (render Quote entries) ∧ dst ∈ Nodes (render Quote entries).
Proof.
  intros (P & deps & d & Hin & Hd & -> & ->)%elem_of_render_Edges.
  destruct (render_listed Quote entries) as (names & HN & _ & Hnames).
  rewrite HN. split; apply list_elem_of_fmap.
  - exists d. split; [done|]. apply Hnames. exists P, deps. auto.
  - exists P. split; [done|]. apply Hnames. exists P, deps. auto.
Qed.

Lemma render_edges_join_declared_nodes_witness :
  plainQuote "fmt" ∈ Nodes (render plainQuote [("root", ["fmt"])])
  ∧ plainQuote "root" ∈ Nodes (render plainQuote [("root", ["fmt"])]).
Proof.
  apply (render_edges_join_declared_nodes plainQuote [("root", ["fmt"])]).
  rewrite render_Edges. cbn. apply elem_of_cons. by left.
Defined.

(** ** main: what a run does to the outside *)

Lemma Walk_silent {S} (fn : S → File → Run (error + S)) tree s :
  (∀ s f, (fn s f).1 = []) → (Walk fn tree s).1 = [].
Proof.
  intros Hfn. revert s. induction tree as [|f tree IH]; intros s; [done|].
  rewrite Walk_cons. specialize (Hfn s f).
  destruct (fn s f) as [t [e|[err|s']]]; cbn in Hfn; subst t; [done..|].
  specialize (IH s'). cbn.
  destruct (Walk fn tree s') as [t' r]. cbn in IH. by subst t'.
Qed.

Lemma findModule_silent m f : (findModule m f).1 = [].
Proof.
  unfold findModule.
  destruct (walkErr f); [done|].
  destruct (Strings.HasSuffix _ _); [|done].
  destruct (openErr f); [done|].
  destruct (readErr f); [done|].
  by destruct (gomod f).
Qed.

Lemma addImports_silent name specs g : (addImports name specs g).1 = [].
Proof.
  revert g. induction specs as [|v specs IH]; intros g; [done|].
  cbn [addImports]. unfold unquote.
  destruct (String.length v <? 2); [done|].
  by rewrite Run_mret_bind.
Qed.

Lemma addFile_silent M g f : (addFile M g f).1 = [].
Proof.
  unfold addFile.
  destruct (walkErr f); [done|].
  destruct (String.eqb _ _); [|done].
  destruct (openErr f); [done|].
  destruct (imports f) as [specs|]; [|done].
  pose proof (addImports_silent (getPackageName M (fpath f)) specs
                (ensureKey (getPackageName M (fpath f)) g)) as H.
  destruct (addImports _ _ _) as [t [e|g']]; cbn in *; subst t; done.
Qed.

(** The two walks only read the work tree. *)
Lemma moduleStage_silent tree : (moduleStage tree).1 = [].
Proof.
  unfold moduleStage.
  pose proof (Walk_silent findModule tree "" findModule_silent) as H.
  destruct (Walk findModule tree "") as [t [e|[err|m]]]; cbn in *; by subst t.
Qed.

Lemma graphStage_silent M tree : (graphStage M tree).1 = [].
Proof.
  unfold graphStage.
  pose proof (Walk_silent (addFile M) tree ∅ (addFile_silent M)) as H.
  destruct (Walk (addFile M) tree ∅) as [t [e|[err|m]]]; cbn in *; by subst t.
Qed.

(** [main] outcome by outcome: the events of the run and how it ends. *)
Lemma main_flat (Quote : string → string) (w : World) :
  main Quote w
  = if dotVersionOk w then
      match Args w with
      | _ :: arg1 :: _ =>
          match convertHTTPtoSSH arg1 with
          | (_, Some err) => ([EvExec ["dot"; "-V"]], inl (FatalURL err))
          | (url, None) =>
              let probe := EvExec ["dot"; "-V"] in
              let key := EvOpen (Filepath.Join [HOME w; "/.ssh/id_rsa"]) in
              if keyOpenOk w && keyReadOk w && publicKeysOk w then
                match remote w url with
                | None => ([probe; key; EvClone url], inl FatalClone)
                | Some tree =>
                    if worktreeOk w then
                      match moduleStage tree with
                      | (_, inl e) => ([probe; key; EvClone url], inl e)
                      | (_, inr moduleName) =>
                          match graphStage moduleName tree with
                          | (_, inl e) => ([probe; key; EvClone url], inl e)
                          | (_, inr g) =>
                              let out :=
                                EvWriteFile "graph.dot"
                                  (render Quote
                                     (map_to_list (dedupPass (clearTail w) g))) in
                              let pdf :=
                                EvExec ["dot"; "-Tpdf"; "graph.dot"; "-o";
                                        "graph.pdf"] in
                              if writeOk w then
                                ([probe; key; EvClone url; out; pdf],
                                 if dotRunOk w then inr tt else inl PanicDot)
                              else ([probe; key; EvClone url; out], inl FatalWrite)
                          end
                      end
                    else ([probe; key; EvClone url], inl FatalWorktree)
                end
              else ([probe; key], inl FatalKey)
          end
      | _ => ([EvExec ["dot"; "-V"]], inl FatalNoArgument)
      end
    else ([EvExec ["dot"; "-V"]], inl FatalGraphviz).
Proof.
  unfold main.
  destruct (dotVersionOk w).
  2:{ destruct (Args w) as [|prog [|arg rest]]; [done..|].
      by destruct (convertHTTPtoSSH arg) as [url [err|]]. }
  destruct (Args w) as [|prog [|arg rest]]; [done..|].
  destruct (convertHTTPtoSSH arg) as [url [err|]]; [done|].
  destruct (keyOpenOk w); [|done].
  destruct (keyReadOk w); [|done].
  destruct (publicKeysOk w); [|done].
  destruct (remote w url) as [tree|]; [|done].
  destruct (worktreeOk w); [|done].
  cbn.
  pose proof (moduleStage_silent tree) as HM.
  destruct (moduleStage tree) as [t1 [e1|M]]; cbn in HM; subst t1; [done|].
  cbn.
  pose proof (graphStage_silent M tree) as HG.
  destruct (graphStage M tree) as [t2 [e2|g]]; cbn in HG; subst t2;
    [reflexivity|].
  destruct (writeOk w), (dotRunOk w); reflexivity.
Qed.

Ltac in_trace H :=
  repeat (apply elem_of_cons in H as [H|H]; [try discriminate H|]);
  try (by apply elem_of_nil in H).

(** X16: a run ends well exactly when graphviz is installed, a
    location is given and converts, the key is read, the clone and the
    work tree are obtained, both walks succeed, graph.dot is written
    and dot renders it. *)
Theorem run_completes_exactly_when (Quote : string → string) (w : World) :
  (main Quote w).2 = inr tt
  ↔ dotVersionOk w = true ∧ keyOpenOk w = true ∧ keyReadOk w = true
    ∧ publicKeysOk w = true ∧ worktreeOk w = true
    ∧ writeOk w = true ∧ dotRunOk w = true
    ∧ ∃ prog arg rest url tree M g,
        Args w = prog :: arg :: rest
        ∧ convertHTTPtoSSH arg = (url, None)
        ∧ remote w url = Some tree
        ∧ moduleStage tree = ([], inr M)
        ∧ graphStage M tree = ([], inr g).
Proof.
  split.
  - rewrite main_flat.
    destruct (dotVersionOk w); [|done].
    destruct (Args w) as [|prog [|arg rest]]; [done..|].
    destruct (convertHTTPtoSSH arg) as [url [err|]] eqn:Hc; [done|].
    destruct (keyOpenOk w); [|done].
    destruct (keyReadOk w); [|done].
    destruct (publicKeysOk w); [|done].
    cbn [andb].
    destruct (remote w url) as [tree|] eqn:HR; [|done].
    destruct (worktreeOk w); [|done].
    pose proof (moduleStage_silent tree) as HM.
    destruct (moduleStage tree) as [t1 [e1|M]] eqn:HMe; cbn in HM; subst t1;
      [done|].
    pose proof (graphStage_silent M tree) as HG.
    destruct (graphStage M tree) as [t2 [e2|g]] eqn:HGe; cbn in HG; subst t2;
      [done|].
    destruct (writeOk w); [|done].
    destruct (dotRunOk w); [|done].
    intros _. repeat (split; [done|]). by exists prog, arg, rest, url, tree, M, g.
  - intros (H1 & H2 & H3 & H4 & H5 & H6 & H7
            & prog & arg & rest & url & tree & M & g & HA & Hc & HR & HM & HG).
    by eapply main_completes.
Qed.

(** X17: the clone is attempted only once graphviz has been found,
    the location has been converted and the private key has been
    opened, read and accepted; the URL cloned is the converted
    location. *)
Theorem clone_follows_every_check
        (Quote : string → string) (w : World) (url : string) :
  EvClone url ∈ (main Quote w).1 →
  dotVersionOk w = true ∧ keyOpenOk w = true ∧ keyReadOk w = true
  ∧ publicKeysOk w = true
  ∧ ∃ prog arg rest, Args w = prog :: arg :: rest
                     ∧ convertHTTPtoSSH arg = (url, None).
Proof.
  rewrite main_flat.
  destruct (dotVersionOk w); [|intros H; in_trace H].
  destruct (Args w) as [|prog [|arg rest]]; [intros H; in_trace H..|].
  destruct (convertHTTPtoSSH arg) as [url0 [err|]] eqn:Hc;
    [intros H; in_trace H|].
  destruct (keyOpenOk w); [|intros H; in_trace H].
  destruct (keyReadOk w); [|intros H; in_trace H].
  destruct (publicKeysOk w); [|intros H; in_trace H].
  cbn [andb]. intros H.
  assert (url = url0) as ->.
  { destruct (remote w url0) as [tree|]; [|in_trace H; congruence].
    destruct (worktreeOk w); [|in_trace H; congruence].
    destruct (moduleStage tree) as [t1 [e1|M]]; [in_trace H; congruence|].
    destruct (graphStage M tree) as [t2 [e2|g]]; [in_trace H; congruence|].
    destruct (writeOk w); in_trace H; congruence. }
  repeat (split; [done|]). by exists prog, arg, rest.
Qed.

Lemma clone_follows_every_check_witness :
  dotVersionOk (worldOf true "https://github.com/u/r" scenario) = true
  ∧ keyOpenOk (worldOf true "https://github.com/u/r" scenario) = true
  ∧ keyReadOk (worldOf true "https://github.com/u/r" scenario) = true
  ∧ publicKeysOk (worldOf true "https://github.com/u/r" scenario) = true
  ∧ ∃ prog arg rest,
      Args (worldOf true "https://github.com/u/r" scenario) = prog :: arg :: rest
      ∧ convertHTTPtoSSH arg = ("git@github.com:u/r", None).
Proof.
  apply (clone_follows_every_check plainQuote
           (worldOf true "https://github.com/u/r" scenario)
           "git@github.com:u/r").
  vm_compute. apply elem_of_cons. right. apply elem_of_cons. right.
  apply elem_of_cons. by left.
Defined.

(** What a write of the run tells about the run. *)
Lemma main_writes_inv (Quote : string → string) (w : World) name graph :
  EvWriteFile name graph ∈ (main Quote w).1 →
  name = "graph.dot"
  ∧ worktreeOk w = true
  ∧ ∃ prog arg rest url tree M g,
      Args w = prog :: arg :: rest
      ∧ convertHTTPtoSSH arg = (url, None)
      ∧ remote w url = Some tree
      ∧ moduleStage tree = ([], inr M)
      ∧ graphStage M tree = ([], inr g)
      ∧ graph = render Quote (map_to_list (dedupPass (clearTail w) g)).
Proof.
  rewrite main_flat.
  destruct (dotVersionOk w); [|intros H; in_trace H].
  destruct (Args w) as [|prog [|arg rest]]; [intros H; in_trace H..|].
  destruct (convertHTTPtoSSH arg) as [url [err|]] eqn:Hc;
    [intros H; in_trace H|].
  destruct (keyOpenOk w); [|intros H; in_trace H].
  destruct (keyReadOk w); [|intros H; in_trace H].
  destruct (publicKeysOk w); [|intros H; in_trace H].
  cbn [andb].
  destruct (remote w url) as [tree|] eqn:HR; [|intros H; in_trace H].
  destruct (worktreeOk w); [|intros H; in_trace H].
  pose proof (moduleStage_silent tree) as HM.
  destruct (moduleStage tree) as [t1 [e1|M]] eqn:HMe; cbn in HM; subst t1;
    [intros H; in_trace H|].
  pose proof (graphStage_silent M tree) as HG.
  destruct (graphStage M tree) as [t2 [e2|g]] eqn:HGe; cbn in HG; subst t2;
    [intros H; in_trace H|].
  intros H.
  assert (name = "graph.dot"
          ∧ graph = render Quote (map_to_list (dedupPass (clearTail w) g)))
    as [-> ->].
  { destruct (writeOk w); in_trace H; by injection H as -> ->. }
  repeat (split; [done|]).
  by exists prog, arg, rest, url, tree, M, g.
Qed.



(** X19: a run that ends well has done exactly five things to the
    outside, in this order: probe for dot, open the key file, clone the
    converted location, write graph.dot, run dot on it. *)
Theorem completed_run_trace
        (Quote : string → string) (w : World) (t : list Event) :
  main Quote w = (t, inr tt) →
  ∃ url graph,
    t = [ EvExec ["dot"; "-V"];
          EvOpen (Filepath.Join [HOME w; "/.ssh/id_rsa"]);
          EvClone url;
          EvWriteFile "graph.dot" graph;
          EvExec ["dot"; "-Tpdf"; "graph.dot"; "-o"; "graph.pdf"] ].
Proof.
  rewrite main_flat.
  destruct (dotVersionOk w); [|done].
  destruct (Args w) as [|prog [|arg rest]]; [done..|].
  destruct (convertHTTPtoSSH arg) as [url [err|]]; [done|].
  destruct (keyOpenOk w && keyReadOk w && publicKeysOk w); [|done].
  destruct (remote w url) as [tree|]; [|done].
  destruct (worktreeOk w); [|done].
  destruct (moduleStage tree) as [t1 [e1|M]]; [done|].
  destruct (graphStage M tree) as [t2 [e2|g]]; [done|].
  destruct (writeOk w); [|done].
  destruct (dotRunOk w); [|done].
  intros [= <-]. eauto.
Qed.

Lemma completed_run_trace_witness :
  ∃ url graph,
    (main plainQuote (worldOf true "https://github.com/u/r" scenario)).1
    = [ EvExec ["dot"; "-V"];
        EvOpen (Filepath.Join
                  [HOME (worldOf true "https://github.com/u/r" scenario);
                   "/.ssh/id_rsa"]);
        EvClone url;
        EvWriteFile "graph.dot" graph;
        EvExec ["dot"; "-Tpdf"; "graph.dot"; "-o"; "graph.pdf"] ].
Proof.
  apply (completed_run_trace plainQuote
           (worldOf true "https://github.com/u/r" scenario)).
  rewrite main_flat. vm_compute. reflexivity.
Defined.

(** ** The sort-and-compact pass loses no import *)

Lemma compactStep_compacting s s' i k :
  compacting s s' i k → k < length s →
  compacting s (Slices.compactStep (s', i) k).1
             (Slices.compactStep (s', i) k).2 (S k).
Proof.
  intros (Hlen & Hi & Hk & Hsame & Hel) Hlt.
  destruct (lookup_lt_is_Some_2 s k Hlt) as [x Hx].
  destruct (lookup_lt_is_Some_2 s (k - 1)) as [y Hy]; [lia|].
  assert (take (S k) s = take k s ++ [x]) as HS by by apply take_S_r.
  unfold Slices.compactStep.
  rewrite (Hsame k), Hx, (Hsame (k - 1)), Hy by lia.
  destruct (String.eqb_spec x y) as [->|Hne]; cbn.
  - split; [done|]. split; [lia|]. split; [lia|]. split.
    + intros j Hj. apply Hsame. lia.
    + intros z. rewrite HS, elem_of_app, Hel, list_elem_of_singleton.
      split; [auto|]. intros [H | ->]; [done|].
      apply elem_of_take. exists (k - 1). split; [done|lia].
  - destruct (Nat.eqb_spec i k) as [->|Hik]; cbn.
    + split; [done|]. split; [lia|]. split; [lia|]. split.
      * intros j Hj. apply Hsame. lia.
      * intros z. rewrite HS.
        rewrite (take_S_r s' k x) by (rewrite Hsame by lia; done).
        by rewrite !elem_of_app, Hel.
    + split; [by rewrite length_insert|]. split; [lia|]. split; [lia|]. split.
      * intros j Hj. rewrite list_lookup_insert_ne by lia. apply Hsame. lia.
      * intros z. rewrite HS.
        rewrite (take_S_r (<[i:=x]> s') i x)
          by (apply list_lookup_insert_eq; lia).
        rewrite take_insert_ge by lia.
        by rewrite !elem_of_app, Hel.
Qed.

Lemma compactLoop_compacting s n k s' i :
  compacting s s' i k → k + n = length s →
  compacting s (foldl Slices.compactStep (s', i) (seq k n)).1
             (foldl Slices.compactStep (s', i) (seq k n)).2 (length s).
Proof.
  revert k s' i. induction n as [|n IH]; intros k s' i Hinv Hlen.
  - cbn. by replace (length s) with k by lia.
  - cbn [seq foldl].
    pose proof (compactStep_compacting s s' i k Hinv ltac:(lia)) as Hstep.
    destruct (Slices.compactStep (s', i) k) as [s'' i'']. cbn in Hstep.
    apply IH; [done|lia].
Qed.

(** Whatever the library version, [Compact] leaves every entry of the
    slice in the caller's view of it, and brings in nothing but the
    empty string of [clear]. *)
Lemma Compact_elems clear s y :
  (y ∈ s → y ∈ (Slices.Compact clear s).1)
  ∧ (y ∈ (Slices.Compact clear s).1 → y ∈ s ∨ (clear = true ∧ y = "")).
Proof.
  unfold Slices.Compact. destruct (length s <? 2) eqn:Hlt; [by auto|].
  apply Nat.ltb_ge in Hlt.
  assert (compacting s s 1 1) as Hinit.
  { split; [done|]. split; [lia|]. split; [lia|]. by split. }
  pose proof (compactLoop_compacting s (length s - 1) 1 s 1 Hinit ltac:(lia))
    as (Hlen & Hi & _ & _ & Hel).
  pose proof (compactLoop_elem (seq 1 (length s - 1)) (s, 1) y) as Hback.
  destruct (foldl Slices.compactStep (s, 1) (seq 1 (length s - 1))) as [s' i].
  cbn in *. rewrite firstn_all in Hel.
  destruct clear; cbn.
  - rewrite elem_of_app, Hel, elem_of_replicate. split; [by left|].
    intros [H | [-> _]]; auto.
  - split; [|by auto]. intros (j & Hj & _)%Hel%elem_of_take.
    by eapply list_elem_of_lookup_2.
Qed.

Lemma sortCompact_elems clear deps d :
  (d ∈ deps → d ∈ sortCompact clear deps)
  ∧ (d ∈ sortCompact clear deps → d ∈ deps ∨ (clear = true ∧ d = "")).
Proof.
  unfold sortCompact.
  destruct (Compact_elems clear (Slices.Sort deps) d) as [H1 H2]. split.
  - intros H. apply H1. by rewrite Sort_Permutation.
  - intros [H | H]%H2; [left|by right]. by rewrite Sort_Permutation in H.
Qed.

(** X20: the pass of lines 148-151 loses no import, whichever version
    of slices.Compact is linked: every entry of a slice is still in it
    afterwards, and the only entry the pass can bring in is the empty
    string that Go 1.22 and later store in the tail. *)
Theorem dedup_pass_loses_no_import
        (clear : bool) (g : DepGraph) (P : string) (deps : list string) :
  g !! P = Some deps →
  ∃ deps', dedupPass clear g !! P = Some deps'
           ∧ (∀ d, d ∈ deps → d ∈ deps')
           ∧ (∀ d, d ∈ deps' → d ∈ deps ∨ (clear = true ∧ d = "")).
Proof.
  intros HP. exists (sortCompact clear deps).
  rewrite dedupPass_lookup, HP. split; [done|].
  split; intros d; apply sortCompact_elems.
Qed.

Lemma dedup_pass_loses_no_import_witness :
  ∃ deps', dedupPass true (<["m" := ["a"; "b"; "a"]]> ∅) !! "m" = Some deps'
           ∧ (∀ d, d ∈ ["a"; "b"; "a"] → d ∈ deps')
           ∧ (∀ d, d ∈ deps' → d ∈ ["a"; "b"; "a"] ∨ (true = true ∧ d = "")).
Proof.
  apply (dedup_pass_loses_no_import true (<["m" := ["a"; "b"; "a"]]> ∅) "m").
  reflexivity.
Defined.

(** ** From the imports to graph.dot *)

Lemma Walk_addFile_records M tree t g P d :
  Walk (addFile M) tree ∅ = (t, inr (inr g)) →
  records g P d ↔ importedBy tree M P d.
Proof.
  intros Hrun. split.
  - intros H. destruct (Walk_addFile_inv _ _ _ _ _ Hrun) as [Hr _].
    destruct (Hr _ _ H) as [(deps & He & _)|H']; [|done].
    by rewrite lookup_empty in He.
  - intros (f & specs & v & Hf & Hext & <- & Hi & Hv & <-).
    destruct (Walk_addFile_inr _ _ _ _ _ Hrun closed_empty) as (_ & _ & Hall).
    destruct (Hall f Hf Hext) as (_ & specs' & Hi' & Hrec).
    rewrite Hi in Hi'. injection Hi' as <-. by apply Hrec.
Qed.

(** X21: in the graph a run writes, every import declared by a .go
    file of the work tree is drawn as an edge from the quoted import to
    the quoted package of the file, and every edge drawn is such an
    import; the one exception is an edge from the quoted empty string,
    which only the Compact of Go 1.22 and later can bring in. *)
Theorem written_graph_draws_every_import
        (Quote : string → string) (w : World) (name : string) (graph : Graph) :
  EvWriteFile name graph ∈ (main Quote w).1 →
  ∃ prog arg rest tree M,
    Args w = prog :: arg :: rest
    ∧ remote w (convertHTTPtoSSH arg).1 = Some tree
    ∧ moduleStage tree = ([], inr M)
    ∧ (∀ P d, importedBy tree M P d → (Quote d, Quote P) ∈ Edges graph)
    ∧ (∀ src dst,
         (src, dst) ∈ Edges graph →
         ∃ P d, src = Quote d ∧ dst = Quote P
                ∧ (importedBy tree M P d ∨ (clearTail w = true ∧ d = ""))).
Proof.
  intros (_ & _ & prog & arg & rest & url & tree & M & g
          & HA & Hc & HR & HM & HG%graphStage_inr & ->)%main_writes_inv.
  exists prog, arg, rest, tree, M. rewrite Hc. cbn.
  repeat (split; [done|]). split.
  - intros P d (deps & HP & Hd)%(Walk_addFile_records _ _ _ _ _ _ HG).
    apply elem_of_render_Edges. exists P, (sortCompact (clearTail w) deps), d.
    split; [|split; [by apply sortCompact_elems|done]].
    apply elem_of_map_to_list. by rewrite dedupPass_lookup, HP.
  - intros src dst (P & deps & d & Hin & Hd & -> & ->)%elem_of_render_Edges.
    exists P, d. split; [done|]. split; [done|].
    apply elem_of_map_to_list in Hin. rewrite dedupPass_lookup in Hin.
    destruct (g !! P) as [deps0|] eqn:HP; [|done]. injection Hin as <-.
    apply sortCompact_elems in Hd as [Hd | Hd]; [left|by right].
    apply (Walk_addFile_records _ _ _ _ _ _ HG). by exists deps0.
Qed.

Lemma written_graph_draws_every_import_witness :
  ∃ prog arg rest tree M,
    Args (worldOf false "https://github.com/u/r" scenario) = prog :: arg :: rest
    ∧ remote (worldOf false "https://github.com/u/r" scenario)
        (convertHTTPtoSSH arg).1 = Some tree
    ∧ moduleStage tree = ([], inr M)
    ∧ (∀ P d,
         importedBy tree M P d →
         (plainQuote d, plainQuote P)
         ∈ Edges (render plainQuote
                    (map_to_list (dedupPass false
                       (<["root" := ["fmt"]]>
                          (<["fmt" := []]>
                             (<["root/sub" := ["root"; "fmt"]]> ∅)))))))
    ∧ (∀ src dst,
         (src, dst)
         ∈ Edges (render plainQuote
                    (map_to_list (dedupPass false
                       (<["root" := ["fmt"]]>
                          (<["fmt" := []]>
                             (<["root/sub" := ["root"; "fmt"]]> ∅)))))) →
         ∃ P d, src = plainQuote d ∧ dst = plainQuote P
                ∧ (importedBy tree M P d
                   ∨ (clearTail (worldOf false "https://github.com/u/r" scenario)
                      = true ∧ d = ""))).
Proof.
  apply (written_graph_draws_every_import plainQuote
           (worldOf false "https://github.com/u/r" scenario) "graph.dot").
  rewrite main_flat. vm_compute.
  do 3 (apply elem_of_cons; right). apply elem_of_cons. by left.
Defined.
